(** * extract_events.py: timetable CSV to structured event records

    A shallow embedding of [src/extract_events.py] and the properties of
    its parsing, splitting, grouping and sorting pipeline.

    Python strings are modelled as lists of characters ([list ascii]), a
    character standing for the code point of the same number.  The model
    therefore covers the strings whose code points lie in U+0000..U+00FF;
    on that range the classification tables below ([is_space], [is_word],
    [py_lower]) are the ones of CPython's [str.isspace], [re]'s [\w] and
    [str.lower]. *)

From Stdlib Require Import Ascii String Bool Arith PeanoNat NArith Lia List.
From Stdlib Require Import Permutation Sorted.
Import ListNotations.

Set Implicit Arguments.

(** ** Strings *)

Definition str := list ascii.

(** String literals of the source are written [L "..."]. *)
Definition L (s : string) : str := list_ascii_of_string s.

Definition code (c : ascii) : nat := nat_of_ascii c.

Definition ascii_eqb (a b : ascii) : bool := Ascii.eqb a b.

Fixpoint str_eqb (a b : str) : bool :=
  match a, b with
  | [], [] => true
  | x :: a', y :: b' => ascii_eqb x y && str_eqb a' b'
  | _, _ => false
  end.

(** Python's [<] on strings: lexicographic by code point. *)
Fixpoint str_ltb (a b : str) : bool :=
  match a, b with
  | [], [] => false
  | [], _ :: _ => true
  | _ :: _, [] => false
  | x :: a', y :: b' =>
      if code x <? code y then true
      else if code y <? code x then false
      else str_ltb a' b'
  end.

(** [str.isspace] of a single character, which is also what [\s],
    [str.strip] and [str.split()] use. *)
Definition is_space (c : ascii) : bool :=
  let n := code c in
  ((9 <=? n) && (n <=? 13)) || ((28 <=? n) && (n <=? 32))
  || (n =? 133) || (n =? 160).

(** [\w] on [str] patterns: [c.isalnum() or c == '_']. *)
Definition is_word (c : ascii) : bool :=
  let n := code c in
  ((48 <=? n) && (n <=? 57)) || ((65 <=? n) && (n <=? 90)) || (n =? 95)
  || ((97 <=? n) && (n <=? 122))
  || (n =? 170) || (n =? 178) || (n =? 179) || (n =? 181) || (n =? 185)
  || (n =? 186) || ((188 <=? n) && (n <=? 190))
  || ((192 <=? n) && (n <=? 214)) || ((216 <=? n) && (n <=? 246))
  || (248 <=? n).

(** [str.lower] of a single character. *)
Definition py_lower (c : ascii) : ascii :=
  let n := code c in
  if ((65 <=? n) && (n <=? 90))
     || ((192 <=? n) && (n <=? 214)) || ((216 <=? n) && (n <=? 222))
  then ascii_of_nat (n + 32) else c.

Definition lower (s : str) : str := map py_lower s.

(** [str.lstrip()], [str.rstrip()] and [str.strip()]. *)
Fixpoint lstrip (s : str) : str :=
  match s with
  | c :: s' => if is_space c then lstrip s' else s
  | [] => []
  end.

Definition rstrip (s : str) : str := rev (lstrip (rev s)).

Definition strip (s : str) : str := lstrip (rstrip s).

(** [s.startswith(p)]. *)
Fixpoint startswith (p s : str) : bool :=
  match p, s with
  | [], _ => true
  | x :: p', y :: s' => ascii_eqb x y && startswith p' s'
  | _ :: _, [] => false
  end.

(** [p in s] for strings. *)
Fixpoint contains (p s : str) : bool :=
  startswith p s ||
  match s with
  | [] => false
  | _ :: s' => contains p s'
  end.

(** [s.split()]: the maximal runs of non-whitespace characters.  [cur]
    is the run being read, reversed. *)
Fixpoint split_ws_aux (cur : str) (s : str) : list str :=
  match s with
  | [] => match cur with [] => [] | _ => [rev cur] end
  | c :: s' =>
      if is_space c
      then match cur with
           | [] => split_ws_aux [] s'
           | _ => rev cur :: split_ws_aux [] s'
           end
      else split_ws_aux (c :: cur) s'
  end.

Definition split_ws (s : str) : list str := split_ws_aux [] s.

(** [s.split(sep)] for a one-character separator: empty pieces are kept. *)
Fixpoint split_on_aux (sep : ascii) (cur : str) (s : str) : list str :=
  match s with
  | [] => [rev cur]
  | c :: s' =>
      if ascii_eqb c sep
      then rev cur :: split_on_aux sep [] s'
      else split_on_aux sep (c :: cur) s'
  end.

Definition split_on (sep : ascii) (s : str) : list str :=
  split_on_aux sep [] s.

(** ** Datetime normaliser *)

(** [parse_datetime]: the unpacking [yyyy, mm, dd = date_part.split("/")]
    raises [ValueError] unless there are exactly three components, and the
    handler returns the empty string. *)
Definition parse_datetime (dt_str : str) : str :=
  match dt_str with
  | [] => []
  | _ =>
      match strip dt_str with
      | [] => []
      | _ =>
          match split_ws (strip dt_str) with
          | [date_part; time_part] =>
              match split_on "/"%char date_part with
              | [yyyy; mm; dd] =>
                  yyyy ++ L "-" ++ mm ++ L "-" ++ dd ++ L "T" ++ time_part
              | _ => []
              end
          | _ => []
          end
      end
  end.

(** ** Regular expressions

    The fragment of Python's [re] that the three patterns of the program
    use, with the backtracking order of [re]: alternatives are tried from
    left to right, [*] is greedy, and a search takes the leftmost start
    at which the pattern matches. *)

Inductive atom : Type :=
| ALit (c : ascii)     (* a literal character *)
| ASpace.              (* \s *)

Inductive regex : Type :=
| Eps
| One (a : atom)       (* a  *)
| Many (a : atom)      (* a* *)
| Bound                (* \b *)
| Eol                  (* $ without re.MULTILINE *)
| Seq (r1 r2 : regex)
| Alt (r1 r2 : regex).

(** A literal word, character after character. *)
Fixpoint word (s : str) : regex :=
  match s with
  | [] => Eps
  | [c] => One (ALit c)
  | c :: s' => Seq (One (ALit c)) (word s')
  end.

(** [r | r1 | ... | rn]. *)
Fixpoint alt_of (r : regex) (rs : list regex) : regex :=
  match rs with
  | [] => r
  | r' :: rs' => Alt r (alt_of r' rs')
  end.

(** A position in the subject string: the character before it, if any,
    and the characters from it on. *)
Definition cursor : Type := option ascii * str.

Definition prev_is_word (prev : option ascii) : bool :=
  match prev with Some c => is_word c | None => false end.

Definition next_is_word (s : str) : bool :=
  match s with c :: _ => is_word c | [] => false end.

Definition at_boundary (prev : option ascii) (s : str) : bool :=
  xorb (prev_is_word prev) (next_is_word s).

(** [$] matches at the end of the string and just before a newline that
    ends the string. *)
Definition at_end (s : str) : bool :=
  match s with
  | [] => true
  | [c] => ascii_eqb c "010"%char
  | _ => false
  end.

Section Matcher.

(** [re.IGNORECASE].  Under it a literal matches the characters with the
    same lowercase form; that is what [re] does for the literals of the
    three patterns on the code points up to U+00FF.  Beyond them [re]
    also lets U+0130 and U+0131 match [i] and U+017F match [s]; such
    characters are outside the strings of this model. *)
Variable ignorecase : bool.

Definition atom_ok (a : atom) (c : ascii) : bool :=
  match a with
  | ALit x =>
      if ignorecase then ascii_eqb (py_lower c) (py_lower x)
      else ascii_eqb c x
  | ASpace => is_space c
  end.

Definition cont : Type := option ascii -> str -> option cursor.

Fixpoint many (a : atom) (prev : option ascii) (s : str) (k : cont)
  : option cursor :=
  match s with
  | c :: s' =>
      if atom_ok a c then
        match many a (Some c) s' k with
        | Some r => Some r
        | None => k prev s
        end
      else k prev s
  | [] => k prev s
  end.

Fixpoint run (r : regex) (prev : option ascii) (s : str) (k : cont)
  : option cursor :=
  match r with
  | Eps => k prev s
  | One a =>
      match s with
      | c :: s' => if atom_ok a c then k (Some c) s' else None
      | [] => None
      end
  | Many a => many a prev s k
  | Bound => if at_boundary prev s then k prev s else None
  | Eol => if at_end s then k prev s else None
  | Seq r1 r2 => run r1 prev s (fun p' s' => run r2 p' s' k)
  | Alt r1 r2 =>
      match run r1 prev s k with
      | Some x => Some x
      | None => run r2 prev s k
      end
  end.

(** A match of [r] that starts at the cursor: the cursor after it. *)
Definition re_match (r : regex) (prev : option ascii) (s : str)
  : option cursor :=
  run r prev s (fun p' s' => Some (p', s')).

(** The leftmost match at or after the cursor: the text skipped before
    it, the text matched, and the cursor after it. *)
Fixpoint re_search (r : regex) (prev : option ascii) (s : str)
  : option (str * str * cursor) :=
  match re_match r prev s with
  | Some (p', rest) =>
      Some ([], firstn (length s - length rest) s, (p', rest))
  | None =>
      match s with
      | [] => None
      | c :: s' =>
          match re_search r (Some c) s' with
          | Some (pre, text, cur) => Some (c :: pre, text, cur)
          | None => None
          end
      end
  end.

(** [pattern.split(s)] for a pattern that matches no empty string:
    each round finds the next match and restarts after it, so a string
    of length [n] needs at most [n] rounds. *)
Fixpoint re_split_from (fuel : nat) (r : regex) (prev : option ascii)
  (s : str) : list str :=
  match re_search r prev s with
  | None => [s]
  | Some (pre, _, (p', rest)) =>
      match fuel with
      | 0 => [s]
      | S n => pre :: re_split_from n r p' rest
      end
  end.

Definition re_split (r : regex) (s : str) : list str :=
  re_split_from (length s) r None s.

(** [pattern.sub("", s)], under the same proviso. *)
Fixpoint re_sub_from (fuel : nat) (r : regex) (prev : option ascii)
  (s : str) : str :=
  match re_search r prev s with
  | None => s
  | Some (pre, _, (p', rest)) =>
      match fuel with
      | 0 => s
      | S n => pre ++ re_sub_from n r p' rest
      end
  end.

Definition re_sub (r : regex) (s : str) : str :=
  re_sub_from (length s) r None s.

End Matcher.

(** ** Name cleaning and mode detection *)

(** [re.compile(r"\b(B2B|B3B|F2F|VS)\b")] *)
Definition MODE_PATTERN : regex :=
  Seq Bound
    (Seq (alt_of (word (L "B2B")) [word (L "B3B"); word (L "F2F"); word (L "VS")])
       Bound).

(** [re.compile(r"\s+(A/V|\(live\))$", re.IGNORECASE)] *)
Definition SUFFIX_PATTERN : regex :=
  Seq (Seq (One ASpace) (Many ASpace))
    (Seq (alt_of (word (L "A/V")) [word (L "(live)")]) Eol).

Definition clean_name (name : str) : str :=
  strip (re_sub true SUFFIX_PATTERN name).

(** [match.group(1)] is the whole match: the two [\b] around the group
    consume nothing. *)
Definition detect_mode (name : str) : str :=
  match re_search false MODE_PATTERN None name with
  | Some (_, text, _) => text
  | None => []
  end.

(** [re.compile(r"\s*(?:B2B|B3B|F2F|VS|X|x|vs| & )\s*", re.IGNORECASE)],
    the pattern compiled inside the loop of [group_events]. *)
Definition split_regex : regex :=
  Seq (Many ASpace)
    (Seq (alt_of (word (L "B2B"))
            [word (L "B3B"); word (L "F2F"); word (L "VS"); word (L "X");
             word (L "x"); word (L "vs"); word (L " & ")])
       (Many ASpace)).

(** ** Exceptions and results *)

Inductive exn : Type :=
| AttributeError   (* [None.strip()] *)
| CsvError.        (* [csv.Error] *)

Inductive result (A : Type) : Type :=
| Ok (a : A)
| Raise (e : exn).

Arguments Ok {A} a.
Arguments Raise {A} e.

Definition bind {A B : Type} (m : result A) (f : A -> result B) : result B :=
  match m with
  | Ok a => f a
  | Raise e => Raise e
  end.

Notation "x <- m ;; k" := (bind m (fun x => k))
  (at level 61, m at next level, right associativity).

(** ** The reader of the [csv] module, default dialect

    Delimiter [,], quote character U+0022, [doublequote] on, no escape
    character, [skipinitialspace] off, not [strict]: the state machine of
    [parse_process_char] in CPython's [_csv.c] with the branches of that
    dialect. *)

Inductive csv_state : Type :=
| START_RECORD | START_FIELD | IN_FIELD | IN_QUOTED_FIELD
| QUOTE_IN_QUOTED_FIELD | EAT_CRNL.

Record parser : Type := {
  state : csv_state;
  fields : list str;   (* the fields saved so far *)
  field : str          (* the field being read, reversed *)
}.

Definition field_size_limit : N := 131072.

Definition quotechar : ascii := "034"%char.
Definition delimiter : ascii := ","%char.
Definition is_nl (c : ascii) : bool :=
  ascii_eqb c "010"%char || ascii_eqb c "013"%char.

Definition parse_reset : parser :=
  {| state := START_RECORD; fields := []; field := [] |}.

Definition set_state (p : parser) (s : csv_state) : parser :=
  {| state := s; fields := fields p; field := field p |}.

Definition parse_save_field (p : parser) : parser :=
  {| state := state p; fields := fields p ++ [rev (field p)]; field := [] |}.

Definition parse_add_char (p : parser) (c : ascii) : result parser :=
  if (field_size_limit <=? N.of_nat (length (field p)))%N then Raise CsvError
  else Ok {| state := state p; fields := fields p; field := c :: field p |}.

(** One step of the machine; [None] is the end-of-line signal that the
    reader sends after the last character of every line. *)
Definition parse_process_char (p : parser) (c : option ascii)
  : result parser :=
  let start_field (p : parser) :=
    match c with
    | None => Ok (set_state (parse_save_field p) START_RECORD)
    | Some ch =>
        if is_nl ch then Ok (set_state (parse_save_field p) EAT_CRNL)
        else if ascii_eqb ch quotechar then Ok (set_state p IN_QUOTED_FIELD)
        else if ascii_eqb ch delimiter then Ok (parse_save_field p)
        else p' <- parse_add_char p ch ;; Ok (set_state p' IN_FIELD)
    end in
  match state p with
  | START_RECORD =>
      match c with
      | None => Ok p
      | Some ch =>
          if is_nl ch then Ok (set_state p EAT_CRNL)
          else start_field (set_state p START_FIELD)
      end
  | START_FIELD => start_field p
  | IN_FIELD =>
      match c with
      | None => Ok (set_state (parse_save_field p) START_RECORD)
      | Some ch =>
          if is_nl ch then Ok (set_state (parse_save_field p) EAT_CRNL)
          else if ascii_eqb ch delimiter
               then Ok (set_state (parse_save_field p) START_FIELD)
          else parse_add_char p ch
      end
  | IN_QUOTED_FIELD =>
      match c with
      | None => Ok p
      | Some ch =>
          if ascii_eqb ch quotechar then Ok (set_state p QUOTE_IN_QUOTED_FIELD)
          else parse_add_char p ch
      end
  | QUOTE_IN_QUOTED_FIELD =>
      match c with
      | None => Ok (set_state (parse_save_field p) START_RECORD)
      | Some ch =>
          if ascii_eqb ch quotechar
          then p' <- parse_add_char p ch ;; Ok (set_state p' IN_QUOTED_FIELD)
          else if ascii_eqb ch delimiter
               then Ok (set_state (parse_save_field p) START_FIELD)
          else if is_nl ch then Ok (set_state (parse_save_field p) EAT_CRNL)
          else p' <- parse_add_char p ch ;; Ok (set_state p' IN_FIELD)
      end
  | EAT_CRNL =>
      match c with
      | None => Ok (set_state p START_RECORD)
      | Some ch => if is_nl ch then Ok p else Raise CsvError
      end
  end.

(** The characters of one line, then the end-of-line signal. *)
Fixpoint parse_line (p : parser) (line : str) : result parser :=
  match line with
  | [] => parse_process_char p None
  | c :: line' => p' <- parse_process_char p (Some c) ;; parse_line p' line'
  end.

(** What iterating the reader yields: rows, until the input ends or an
    error is raised. *)
Inductive rows : Type :=
| RStop
| RError
| RRow (r : list str) (rest : rows).

Definition in_quoted (s : csv_state) : bool :=
  match s with IN_QUOTED_FIELD => true | _ => false end.

(** [Reader_iternext], repeated: a record is complete when a line leaves
    the machine in [START_RECORD]; input that ends inside a record yields
    the fields read so far. *)
Fixpoint reader (p : parser) (lines : list str) : rows :=
  match lines with
  | [] =>
      if negb (length (field p) =? 0) || in_quoted (state p)
      then RRow (fields (parse_save_field p)) RStop
      else RStop
  | line :: lines' =>
      match parse_line p line with
      | Raise _ => RError
      | Ok p' =>
          match state p' with
          | START_RECORD => RRow (fields p') (reader parse_reset lines')
          | _ => reader p' lines'
          end
      end
  end.

Definition csv_reader (lines : list str) : rows := reader parse_reset lines.

(** ** csv.DictReader *)

(** Python values held by the row dictionaries: a string, or [None]
    (the [restval] given to the fields a short row lacks). *)
Inductive pyval : Type :=
| VStr (s : str)
| VNone.

(** A dictionary with string keys; the newest binding of a key comes
    first and is the one [dict_get] sees. *)
Definition dict : Type := list (str * pyval).

Fixpoint dict_get (d : dict) (k : str) : option pyval :=
  match d with
  | [] => None
  | (k', v) :: d' => if str_eqb k' k then Some v else dict_get d' k
  end.

(** [dict(zip(fieldnames, row))] followed by [d[key] = restval] for the
    field names beyond the row.  The values beyond the field names go
    under the key [None], which no lookup of the program uses. *)
Fixpoint make_row (d : dict) (fieldnames : list str) (row : list str) : dict :=
  match fieldnames, row with
  | k :: fieldnames', v :: row' => make_row ((k, VStr v) :: d) fieldnames' row'
  | k :: fieldnames', [] => make_row ((k, VNone) :: d) fieldnames' []
  | [], _ => d
  end.

(** The dictionaries that [DictReader] yields after the field names:
    empty rows are skipped. *)
Fixpoint dict_rows (fieldnames : list str) (rs : rows) : list dict * bool :=
  match rs with
  | RStop => ([], false)
  | RError => ([], true)
  | RRow [] rest => dict_rows fieldnames rest
  | RRow r rest =>
      let (ds, e) := dict_rows fieldnames rest in
      (make_row [] fieldnames r :: ds, e)
  end.

(** ** load_csv *)

Record RawRow : Type := {
  start : str;
  end_ : str;
  name : str;
  stage : str
}.

(** The first loop of [load_csv]: one leading comment marker is removed. *)
Definition process_line (line : str) : str :=
  let stripped := lstrip line in
  if startswith (L "//") stripped then lstrip (skipn 2 stripped) else line.

Definition is_header (line : str) : bool :=
  startswith (L "Start,") (strip line)
  && contains (L "End") line
  && contains (L "Name") line
  && contains (L "Location") line.

(** [processed[header_idx:]] for the first header line, if there is one. *)
Fixpoint from_header (processed : list str) : option (list str) :=
  match processed with
  | [] => None
  | line :: rest => if is_header line then Some processed else from_header rest
  end.

(** [row.get(key, "").strip()] *)
Definition get_strip (row : dict) (key : str) : result str :=
  match dict_get row key with
  | None => Ok (strip [])
  | Some (VStr s) => Ok (strip s)
  | Some VNone => Raise AttributeError
  end.

Definition is_empty (s : str) : bool :=
  match s with [] => true | _ => false end.

(** The body of the row loop: [None] when the row is skipped. *)
Definition extract_row (row : dict) : result (option RawRow) :=
  start <- get_strip row (L "Start") ;;
  end_ <- get_strip row (L "End") ;;
  name <- get_strip row (L "Name") ;;
  stage <- get_strip row (L "Location") ;;
  if is_empty start || is_empty end_ || is_empty name || is_empty stage
  then Ok None
  else Ok (Some {| start := start; end_ := end_; name := name; stage := stage |}).

(** The row loop over a lazy reader: the rows read before a reader error
    are processed first, so an exception of the loop body on one of them
    is the one that is raised. *)
Fixpoint extract_rows (ds : list dict) (reader_error : bool)
  : result (list RawRow) :=
  match ds with
  | [] => if reader_error then Raise CsvError else Ok []
  | d :: ds' =>
      r <- extract_row d ;;
      events <- extract_rows ds' reader_error ;;
      Ok (match r with Some ev => ev :: events | None => events end)
  end.

Definition header_error : str := L "Error: CSV header row not found.".

(** [load_csv] on the lines of the file ([csvfile.readlines()]): what it
    writes on the standard error stream, and what it returns or raises. *)
Definition load_csv (raw_lines : list str) : list str * result (list RawRow) :=
  let processed := map process_line raw_lines in
  match from_header processed with
  | None => ([header_error], Ok [])
  | Some data_lines =>
      match csv_reader data_lines with
      | RStop => ([], Ok [])
      | RError => ([], Raise CsvError)
      | RRow fieldnames rest =>
          let (ds, e) := dict_rows fieldnames rest in
          ([], extract_rows ds e)
      end
  end.

Definition nl : str := ["010"%char].

(** ** group_events *)

Record OutputEvent : Type := {
  ev_name : str;
  ev_time : str;
  ev_end_time : str;
  ev_stage : str;
  ev_performance_mode : str;
  ev_custom_name : option str   (* [None]: the key is absent *)
}.

Definition SlotKey : Type := (str * str * str)%type.

Definition key_eqb (a b : SlotKey) : bool :=
  match a, b with
  | (s1, e1, g1), (s2, e2, g2) => str_eqb s1 s2 && str_eqb e1 e2 && str_eqb g1 g2
  end.

(** The [defaultdict(list)]: keys in the order of their first insertion,
    which is the order in which [grouped.items()] yields them. *)
Definition SlotGroups : Type := list (SlotKey * list str).

(** [grouped[key].append(nm)] *)
Fixpoint grouped_append (key : SlotKey) (nm : str) (g : SlotGroups) : SlotGroups :=
  match g with
  | [] => [(key, [nm])]
  | (k, names) :: g' =>
      if key_eqb k key then (k, names ++ [nm]) :: g'
      else (k, names) :: grouped_append key nm g'
  end.

Definition slot_key (ev : RawRow) : SlotKey := (start ev, end_ ev, stage ev).

Definition grouped (events : list RawRow) : SlotGroups :=
  fold_left (fun g ev => grouped_append (slot_key ev) (name ev) g) events [].

(** The list comprehension of the [else] branch. *)
Definition split_pieces (combined_name : str) : list str :=
  map clean_name
    (filter (fun n => negb (is_empty (clean_name n)))
       (re_split true split_regex combined_name)).

Definition is_b2b_literal (combined_name : str) : bool :=
  str_eqb (lower (strip combined_name)) (L "b2b2b2b2b").

Definition split_artists (combined_name : str) : list str :=
  if is_b2b_literal combined_name then [clean_name combined_name]
  else split_pieces combined_name.

(** The body of the inner loop: the events appended to [merged] for one
    name of a slot.  The diagnostic [print] on standard output is left
    out; it has no part in the value returned. *)
Definition emit_name (key : SlotKey) (combined_name : str) : list OutputEvent :=
  let '(start, end_, stage) := key in
  let artists := split_artists combined_name in
  if 1 <? length artists then
    map (fun n =>
           {| ev_name := n;
              ev_time := parse_datetime start;
              ev_end_time := parse_datetime end_;
              ev_stage := stage;
              ev_performance_mode := L "B2B";
              ev_custom_name := Some (clean_name combined_name) |})
        artists
  else
    let mode := detect_mode combined_name in
    [ {| ev_name := clean_name combined_name;
         ev_time := parse_datetime start;
         ev_end_time := parse_datetime end_;
         ev_stage := stage;
         ev_performance_mode := mode;
         ev_custom_name := None |} ].

Definition group_events (events : list RawRow) : list OutputEvent :=
  flat_map (fun '(key, names) => flat_map (emit_name key) names)
           (grouped events).

(** ** Sorting and the main pipeline *)

(** The sort key [(x["time"], x["stage"])] and Python's [<] on such
    pairs: the first components decide unless they are equal. *)
Definition sort_key (e : OutputEvent) : str * str := (ev_time e, ev_stage e).

Definition key_ltb (a b : str * str) : bool :=
  if str_eqb (fst a) (fst b) then str_ltb (snd a) (snd b)
  else str_ltb (fst a) (fst b).

(** [list.sort(key=...)] is stable; it is modelled by the stable
    insertion sort, which yields the same list as every stable sort. *)
Fixpoint insert_event (x : OutputEvent) (l : list OutputEvent) : list OutputEvent :=
  match l with
  | [] => [x]
  | y :: l' =>
      if key_ltb (sort_key y) (sort_key x) then y :: insert_event x l'
      else x :: l
  end.

Definition sort_events (l : list OutputEvent) : list OutputEvent :=
  fold_right insert_event [] l.

(** The objects that [to_json] serialises, in order. *)
Record Entry : Type := {
  artist_id : list str;
  en_name : str;
  en_time : str;
  en_end_time : str;
  soundcloud : str;
  en_stage : str;
  en_performance_mode : str;
  en_custom_name : option str
}.

Definition to_json (entries : list OutputEvent) : list Entry :=
  map (fun e =>
         {| artist_id := [];
            en_name := ev_name e;
            en_time := ev_time e;
            en_end_time := ev_end_time e;
            soundcloud := [];
            en_stage := ev_stage e;
            en_performance_mode := ev_performance_mode e;
            en_custom_name := ev_custom_name e |})
      entries.

Inductive outcome : Type :=
| Exit1                         (* [sys.exit(1)] *)
| Output (out : list Entry)     (* the array given to [json.dumps] *)
| Uncaught (e : exn).

Definition no_events_error : str :=
  L "No valid events found. Check CSV formatting.".

(** The sorted list that [main] passes to [to_json]. *)
Definition sorted_events (events : list RawRow) : list OutputEvent :=
  sort_events (group_events events).

(** [main] on the lines of the input file: the standard error stream and
    the outcome. *)
Definition main (raw_lines : list str) : list str * outcome :=
  let (err, r) := load_csv raw_lines in
  match r with
  | Raise e => (err, Uncaught e)
  | Ok [] => (err ++ [no_events_error], Exit1)
  | Ok events => (err, Output (to_json (sorted_events events)))
  end.

Definition row (s e n g : string) : RawRow :=
  {| start := L s; end_ := L e; name := L n; stage := L g |}.


(** ** Notions used to state the properties *)

Definition all_space (s : str) : Prop := Forall (fun c => is_space c = true) s.

Definition no_space (s : str) : Prop := Forall (fun c => is_space c = false) s.

(** The split/normalise/emit step applied to one row on its own, and to
    every row of a sequence in turn, without any grouping. *)
Definition emit_row (ev : RawRow) : list OutputEvent :=
  emit_name (slot_key ev) (name ev).

Definition ungrouped_events (events : list RawRow) : list OutputEvent :=
  flat_map emit_row events.

(** The records of a list that carry a given sort key. *)
Definition has_key (k : str * str) (e : OutputEvent) : bool :=
  str_eqb (ev_time e) (fst k) && str_eqb (ev_stage e) (snd k).

(** The (name, key) pairs of a grouping, slot after slot. *)
Definition group_pairs (g : SlotGroups) : list (SlotKey * str) :=
  flat_map (fun '(key, names) => map (pair key) names) g.

(** The character before the position reached after reading [m] from a
    position whose previous character is [prev]. *)
Definition after (prev : option ascii) (m : str) : option ascii :=
  fold_left (fun _ c => Some c) m prev.

Definition last_char (s : str) : option ascii := after None s.

(** The tokens of [MODE_PATTERN], and an occurrence of one of them in
    [s] between [pre] and [post] with a word boundary on either side. *)
Definition mode_tokens : list str := [L "B2B"; L "B3B"; L "F2F"; L "VS"].

Definition mode_occurrence (s pre tok post : str) : Prop :=
  s = pre ++ tok ++ post /\ In tok mode_tokens /\
  at_boundary (last_char pre) (tok ++ post) = true /\
  at_boundary (last_char tok) post = true.

Definition next_is_space (s : str) : bool :=
  match s with c :: _ => is_space c | [] => false end.

(** A literal word agrees with the characters it is compared with, one
    by one. *)
Fixpoint word_ok (ignorecase : bool) (w s : str) : bool :=
  match w, s with
  | [], _ => true
  | x :: w', c :: s' => atom_ok ignorecase (ALit x) c && word_ok ignorecase w' s'
  | _ :: _, [] => false
  end.

Definition key_le (x y : OutputEvent) : Prop :=
  key_ltb (sort_key y) (sort_key x) = false.

(** A pattern that matches no empty string. *)
Definition nonempty_matches (ic : bool) (r : regex) : Prop :=
  forall prev s p' rest,
    re_match ic r prev s = Some (p', rest) -> length rest < length s.

(** The two suffixes of [SUFFIX_PATTERN], in any casing. *)
Definition is_suffix_word (sfx : str) : Prop :=
  lower sfx = L "a/v" \/ lower sfx = L "(live)".

(** [t] ends with whitespace followed by one of the suffixes. *)
Definition ends_with_suffix (t : str) : Prop :=
  exists b w sfx,
    t = b ++ w ++ sfx /\ w <> [] /\ all_space w /\ is_suffix_word sfx.

(** The records that a split name stands for in the result: one per
    piece, with the mode [B2B] and the cleaned combined name. *)
Definition split_block (ev : RawRow) : list OutputEvent :=
  map (fun piece =>
         {| ev_name := piece;
            ev_time := parse_datetime (start ev);
            ev_end_time := parse_datetime (end_ ev);
            ev_stage := stage ev;
            ev_performance_mode := L "B2B";
            ev_custom_name := Some (clean_name (name ev)) |})
      (split_pieces (name ev)).

(** The single record of a name that is not split, with a given mode. *)
Definition single_event (ev : RawRow) (mode : str) : OutputEvent :=
  {| ev_name := clean_name (name ev);
     ev_time := parse_datetime (start ev);
     ev_end_time := parse_datetime (end_ ev);
     ev_stage := stage ev;
     ev_performance_mode := mode;
     ev_custom_name := None |}.

(** [group_events] emits the records of [block], in that order and next
    to each other. *)
Definition emits_block (events : list RawRow) (block : list OutputEvent) : Prop :=
  exists before after, group_events events = before ++ block ++ after.

(** A row as [load_csv] accepts it: four trimmed, non-empty fields. *)
Definition trimmed (s : str) : Prop := strip s = s /\ s <> [].

Definition valid_row (ev : RawRow) : Prop :=
  trimmed (start ev) /\ trimmed (end_ ev) /\ trimmed (name ev)
  /\ trimmed (stage ev).

(** ** Sample inputs *)

Definition sample_split_row : RawRow :=
  row "2024/07/13 18:00" "2024/07/13 19:00" "Artist A B2B Artist B" "Main Stage".

Definition sample_solo_row : RawRow :=
  row "2024/07/13 18:00" "2024/07/13 19:00" "Solo Set VS" "Main Stage".

Definition sample_literal_row : RawRow :=
  row "2024/07/13 18:00" "2024/07/13 19:00" "b2b2b2b2b" "Main Stage".

Definition sample_literal_row_mixed : RawRow :=
  row "2024/07/13 18:00" "2024/07/13 19:00" "B2b2B2b2b" "Main Stage".

Definition sample_csv : list str :=
  [L "// some note" ++ nl;
   L "Start,End,Name,Location" ++ nl;
   L "2024/07/13 18:00,2024/07/13 19:00,Artist A B2B Artist B,Main Stage" ++ nl;
   L "2024/07/13 17:00,2024/07/13 18:00,Solo Set VS,Main Stage" ++ nl].

(** A file without a header line. *)
Definition sample_csv_no_header : list str :=
  [L "// some note" ++ nl;
   L "From,To,Artist,Stage" ++ nl;
   L "2024/07/13 18:00,2024/07/13 19:00,Solo Set,Main Stage" ++ nl].

(** A file whose second data row stops after the name. *)
Definition sample_csv_short_row : list str :=
  [L "Start,End,Name,Location" ++ nl;
   L "2024/07/13 18:00,2024/07/13 19:00,Solo Set,Main Stage" ++ nl;
   L "2024/07/13 19:00,2024/07/13 20:00,Late Set" ++ nl].

(** What [main] serialises for [sample_csv]. *)
Definition sample_output : list Entry :=
  match snd (main sample_csv) with
  | Output out => out
  | _ => []
  end.

(** ** Notions used to state further properties *)

(** The keys of a list, each at its first occurrence. *)
Fixpoint distinct_keys (ks : list SlotKey) : list SlotKey :=
  match ks with
  | [] => []
  | k :: ks' => k :: filter (fun k' => negb (key_eqb k' k)) (distinct_keys ks')
  end.

(** The rows of a slot, in the order of the input. *)
Definition rows_of_slot (k : SlotKey) (events : list RawRow) : list RawRow :=
  filter (fun ev => key_eqb (slot_key ev) k) events.

(** A field that needs no quoting: no delimiter, no quote character, no
    line break, and not longer than the reader allows. *)
Definition plain_char (c : ascii) : bool :=
  negb (ascii_eqb c delimiter || ascii_eqb c quotechar || is_nl c).

Definition plain_field (f : str) : Prop :=
  Forall (fun c => plain_char c = true) f /\
  (N.of_nat (length f) <= field_size_limit)%N.

(** The line of a record: its fields with the delimiter between them,
    and a line feed. *)
Fixpoint join_fields (fs : list str) : str :=
  match fs with
  | [] => []
  | [f] => f
  | f :: fs' => f ++ delimiter :: join_fields fs'
  end.

Definition csv_line (fs : list str) : str := join_fields fs ++ nl.

(** The value that a record has in the column named [k]. *)
Fixpoint cell (fieldnames : list str) (r : list str) (k : str) : str :=
  match fieldnames, r with
  | f :: fieldnames', v :: r' =>
      if str_eqb f k then v else cell fieldnames' r' k
  | _, _ => []
  end.

(** The row that a record gives under a header, if it is kept. *)
Definition raw_row_of (fieldnames : list str) (r : list str) : list RawRow :=
  let s := strip (cell fieldnames r (L "Start")) in
  let e := strip (cell fieldnames r (L "End")) in
  let n := strip (cell fieldnames r (L "Name")) in
  let g := strip (cell fieldnames r (L "Location")) in
  if is_empty s || is_empty e || is_empty n || is_empty g then []
  else [ {| start := s; end_ := e; name := n; stage := g |} ].

Definition sample_fieldnames : list str :=
  [L "Start"; L "Name"; L "Genre"; L "Location"; L "End"].

Definition sample_table : list (list str) :=
  [ [L "2024/07/13 18:00"; L " Solo Set "; L "Techno"; L "Main Stage"; L "2024/07/13 19:00"];
    [L "2024/07/13 19:00"; L ""; L "House"; L "Main Stage"; L "2024/07/13 20:00"];
    [L "2024/07/13 20:00"; L "Late Set"; L ""; L "Tent"; L "2024/07/13 21:00"] ].

Definition next_is_nl (s : str) : bool :=
  match s with c :: _ => is_nl c | [] => false end.

(** The characters with which a separator of [split_regex] or a token of
    [MODE_PATTERN] can begin, the blank of [ & ] apart: [b], [f], [v],
    [x] in either case, and [&]. *)
Definition separator_letter (c : ascii) : bool :=
  let l := py_lower c in
  ascii_eqb l "b"%char || ascii_eqb l "f"%char || ascii_eqb l "v"%char
  || ascii_eqb l "x"%char || ascii_eqb l "&"%char.

Definition is_x (c : ascii) : bool := ascii_eqb (py_lower c) "x"%char.

(** * Properties *)

(** ** The examples of the specification *)

Example parse_datetime_ex1 :
  parse_datetime (L "2024/07/13 18:30") = L "2024-07-13T18:30".
Proof. reflexivity. Qed.

Example parse_datetime_ex2 : parse_datetime (L "garbage") = [].
Proof. reflexivity. Qed.

Example clean_name_ex1 : clean_name (L "DJ Test A/V") = L "DJ Test".
Proof. reflexivity. Qed.

Example clean_name_ex2 : clean_name (L "DJ Test (Live)") = L "DJ Test".
Proof. reflexivity. Qed.

Example detect_mode_ex1 : detect_mode (L "Solo Set VS") = L "VS".
Proof. reflexivity. Qed.

Example detect_mode_ex2 : detect_mode (L "B2B2B2B2B") = [].
Proof. reflexivity. Qed.

Example re_split_ex1 :
  re_split true split_regex (L "Artist A B2B Artist B") = [L "Artist A"; L "Artist B"].
Proof. reflexivity. Qed.

Example re_split_ex2 :
  re_split true split_regex (L "b2b2b2b2b") = [ []; L "2"; L "2b"].
Proof. reflexivity. Qed.

Example load_csv_ex1 :
  load_csv [L "// some note" ++ nl; L "Start,End,Name,Location" ++ nl;
            L "2024/07/13 18:00,2024/07/13 19:00,DJ X B2B DJ Y,Main Stage" ++ nl]
  = ([], Ok [ {| start := L "2024/07/13 18:00"; end_ := L "2024/07/13 19:00";
                 name := L "DJ X B2B DJ Y"; stage := L "Main Stage" |} ]).
Proof. vm_compute. reflexivity. Qed.

Example group_events_ex1 :
  group_events [row "2024/07/13 18:00" "2024/07/13 19:00" "Artist A B2B Artist B" "Main"]
  = [ {| ev_name := L "Artist A"; ev_time := L "2024-07-13T18:00";
         ev_end_time := L "2024-07-13T19:00"; ev_stage := L "Main";
         ev_performance_mode := L "B2B";
         ev_custom_name := Some (L "Artist A B2B Artist B") |};
      {| ev_name := L "Artist B"; ev_time := L "2024-07-13T18:00";
         ev_end_time := L "2024-07-13T19:00"; ev_stage := L "Main";
         ev_performance_mode := L "B2B";
         ev_custom_name := Some (L "Artist A B2B Artist B") |} ].
Proof. vm_compute. reflexivity. Qed.

Example re_split_ex3 :
  re_split true split_regex (L "Artist A  &  Artist B") = [L "Artist A"; L "Artist B"].
Proof. reflexivity. Qed.

Example re_split_ex4 :
  re_split true split_regex (L "Solo Set VS") = [L "Solo Set"; []].
Proof. reflexivity. Qed.

Example split_pieces_ex_b3b :
  split_pieces (L "One b3b Two F2F Three vs Four x Five") =
  [L "One"; L "Two"; L "Three"; L "Four"; L "Five"].
Proof. vm_compute. reflexivity. Qed.

Example split_pieces_ex_inner_x :
  split_pieces (L "Max Cooper") = [L "Ma"; L "Cooper"].
Proof. vm_compute. reflexivity. Qed.

Example detect_mode_ex3 : detect_mode (L "x_VS") = [].
Proof. reflexivity. Qed.

Example detect_mode_ex4 : detect_mode (L "B2B-VS") = L "B2B".
Proof. reflexivity. Qed.

Example clean_name_ex3 : clean_name (L "DJ A/V A/V") = L "DJ A/V".
Proof. reflexivity. Qed.

Example csv_reader_ex1 :
  csv_reader [L "a," ++ [quotechar] ++ L "b" ++ nl; L "c" ++ [quotechar] ++ L ",d" ++ nl; L "e"]
  = RRow [L "a"; L "b" ++ nl ++ L "c"; L "d"] (RRow [L "e"] RStop).
Proof. vm_compute. reflexivity. Qed.

Example csv_reader_ex2 :
  csv_reader [L "a,b" ++ nl; nl; L "," ++ nl; L "x"]
  = RRow [L "a"; L "b"] (RRow [] (RRow [ []; [] ] (RRow [L "x"] RStop))).
Proof. vm_compute. reflexivity. Qed.

Example main_ex1 :
  main sample_csv =
  ([], Output
     [ {| artist_id := []; en_name := L "Solo Set VS";
          en_time := L "2024-07-13T17:00"; en_end_time := L "2024-07-13T18:00";
          soundcloud := []; en_stage := L "Main Stage";
          en_performance_mode := L "VS"; en_custom_name := None |};
       {| artist_id := []; en_name := L "Artist A";
          en_time := L "2024-07-13T18:00"; en_end_time := L "2024-07-13T19:00";
          soundcloud := []; en_stage := L "Main Stage";
          en_performance_mode := L "B2B";
          en_custom_name := Some (L "Artist A B2B Artist B") |};
       {| artist_id := []; en_name := L "Artist B";
          en_time := L "2024-07-13T18:00"; en_end_time := L "2024-07-13T19:00";
          soundcloud := []; en_stage := L "Main Stage";
          en_performance_mode := L "B2B";
          en_custom_name := Some (L "Artist A B2B Artist B") |} ]).
Proof. vm_compute. reflexivity. Qed.

(** ** Characters and strings *)

Lemma ascii_eqb_eq (a b : ascii) : ascii_eqb a b = true <-> a = b.
Proof. apply Ascii.eqb_eq. Qed.

Lemma ascii_eqb_refl (a : ascii) : ascii_eqb a a = true.
Proof. apply Ascii.eqb_refl. Qed.

Lemma str_eqb_eq (a b : str) : str_eqb a b = true <-> a = b.
Proof.
  revert b; induction a as [|x a IH]; intros [|y b]; simpl;
    try (split; [discriminate | congruence]); try tauto.
  rewrite andb_true_iff, ascii_eqb_eq, IH.
  split; [intros [-> ->]; reflexivity | intros H; inversion H; auto].
Qed.

Lemma str_eqb_refl (a : str) : str_eqb a a = true.
Proof. apply str_eqb_eq; reflexivity. Qed.

Lemma str_eqb_neq (a b : str) : str_eqb a b = false <-> a <> b.
Proof.
  rewrite <- str_eqb_eq. destruct (str_eqb a b); split; congruence.
Qed.

Lemma code_inj (a b : ascii) : code a = code b -> a = b.
Proof.
  unfold code; intros H.
  rewrite <- (ascii_nat_embedding a), <- (ascii_nat_embedding b), H.
  reflexivity.
Qed.

Lemma str_ltb_irrefl (a : str) : str_ltb a a = false.
Proof.
  induction a as [|x a IH]; simpl; [reflexivity|].
  rewrite Nat.ltb_irrefl; exact IH.
Qed.

Lemma str_ltb_trans (a b c : str) :
  str_ltb a b = true -> str_ltb b c = true -> str_ltb a c = true.
Proof.
  revert b c; induction a as [|x a IH]; intros [|y b] [|z c]; simpl;
    try congruence.
  destruct (code x <? code y) eqn:Hxy, (code y <? code x) eqn:Hyx,
           (code y <? code z) eqn:Hyz, (code z <? code y) eqn:Hzy,
           (code x <? code z) eqn:Hxz, (code z <? code x) eqn:Hzx;
    try congruence;
    repeat match goal with
      | H : (_ <? _) = true |- _ => apply Nat.ltb_lt in H
      | H : (_ <? _) = false |- _ => apply Nat.ltb_ge in H
      end; try lia.
  apply IH.
Qed.

Lemma str_ltb_total (a b : str) :
  str_ltb a b = false -> str_ltb b a = false -> a = b.
Proof.
  revert b; induction a as [|x a IH]; intros [|y b]; simpl;
    try congruence.
  destruct (code x <? code y) eqn:Hxy, (code y <? code x) eqn:Hyx;
    try congruence.
  apply Nat.ltb_ge in Hxy, Hyx. intros H1 H2.
  f_equal; [apply code_inj; lia | apply IH; assumption].
Qed.

(** ** The order of the sort keys *)

Lemma key_ltb_irrefl (a : str * str) : key_ltb a a = false.
Proof.
  unfold key_ltb. rewrite str_eqb_refl. apply str_ltb_irrefl.
Qed.

Lemma key_ltb_spec (a b : str * str) :
  key_ltb a b = true <->
  str_ltb (fst a) (fst b) = true \/
  (fst a = fst b /\ str_ltb (snd a) (snd b) = true).
Proof.
  unfold key_ltb. destruct (str_eqb (fst a) (fst b)) eqn:E.
  - apply str_eqb_eq in E. rewrite E. rewrite str_ltb_irrefl.
    split; [auto | intros [H|[_ H]]; [discriminate | exact H]].
  - apply str_eqb_neq in E.
    split; [auto | intros [H|[H _]]; [exact H | contradiction]].
Qed.

Lemma key_ltb_trans (a b c : str * str) :
  key_ltb a b = true -> key_ltb b c = true -> key_ltb a c = true.
Proof.
  rewrite !key_ltb_spec.
  intros [H1|[H1 H1']] [H2|[H2 H2']].
  - left; eapply str_ltb_trans; eassumption.
  - left; rewrite <- H2; exact H1.
  - left; rewrite H1; exact H2.
  - right; split; [congruence | eapply str_ltb_trans; eassumption].
Qed.

Lemma key_ltb_total (a b : str * str) :
  key_ltb a b = false -> key_ltb b a = false -> a = b.
Proof.
  destruct a as [a1 a2], b as [b1 b2]; unfold key_ltb; simpl.
  destruct (str_eqb a1 b1) eqn:E1.
  - apply str_eqb_eq in E1; subst b1. rewrite str_eqb_refl.
    intros H1 H2; f_equal; apply str_ltb_total; assumption.
  - destruct (str_eqb b1 a1) eqn:E2.
    + apply str_eqb_eq in E2; subst b1. rewrite str_eqb_refl in E1; discriminate.
    + intros H1 H2. apply str_eqb_neq in E1. exfalso; apply E1.
      apply str_ltb_total; assumption.
Qed.

Lemma key_ltb_asym (a b : str * str) :
  key_ltb a b = true -> key_ltb b a = false.
Proof.
  intros H. destruct (key_ltb b a) eqn:E; [|reflexivity].
  pose proof (key_ltb_trans _ _ _ H E) as H'.
  rewrite key_ltb_irrefl in H'; discriminate.
Qed.

(** [a <= c] and [b < c] fail together only if ... : the order is a
    strict weak order. *)
Lemma key_ltb_le_trans (a b c : str * str) :
  key_ltb b a = false -> key_ltb c b = false -> key_ltb c a = false.
Proof.
  intros Hab Hbc. destruct (key_ltb c a) eqn:E; [|reflexivity].
  destruct (key_ltb a b) eqn:E1.
  - rewrite (key_ltb_trans _ _ _ E E1) in Hbc; discriminate.
  - assert (a = b) by (apply key_ltb_total; assumption). subst b.
    congruence.
Qed.

Lemma has_key_iff (k : str * str) (e : OutputEvent) :
  has_key k e = true <-> sort_key e = k.
Proof.
  unfold has_key, sort_key. destruct k as [k1 k2]; simpl.
  rewrite andb_true_iff, !str_eqb_eq.
  split; [intros [-> ->]; reflexivity | intros H; inversion H; auto].
Qed.

(** ** Stripping and splitting *)

Lemma is_space_not_word (c : ascii) : is_space c = true -> is_word c = false.
Proof.
  destruct c as [[] [] [] [] [] [] [] []]; vm_compute; congruence.
Qed.

Lemma lstrip_app_space (w s : str) : all_space w -> lstrip (w ++ s) = lstrip s.
Proof.
  induction 1 as [|c w Hc Hw IH]; simpl; [reflexivity|].
  rewrite Hc; exact IH.
Qed.

Lemma lstrip_all_space (w : str) : all_space w -> lstrip w = [].
Proof.
  intros H. rewrite <- (app_nil_r w), lstrip_app_space; auto.
Qed.

Lemma lstrip_nil_all_space (s : str) : lstrip s = [] -> all_space s.
Proof.
  induction s as [|c s IH]; simpl; [constructor|].
  destruct (is_space c) eqn:E; [|discriminate].
  intros H; constructor; [exact E | exact (IH H)].
Qed.

Lemma lstrip_head (s : str) (c : ascii) (r : str) :
  lstrip s = c :: r -> is_space c = false.
Proof.
  induction s as [|x s IH]; simpl; [discriminate|].
  destruct (is_space x) eqn:E; [exact IH|].
  intros H; injection H as -> _; exact E.
Qed.

Lemma lstrip_decomp (s : str) : exists w, s = w ++ lstrip s /\ all_space w.
Proof.
  induction s as [|c s (w & Hw & Hs)]; simpl.
  - exists []; split; [reflexivity | constructor].
  - destruct (is_space c) eqn:E.
    + exists (c :: w); split; [simpl; f_equal; exact Hw | constructor; assumption].
    + exists []; split; [reflexivity | constructor].
Qed.

Lemma lstrip_idem (s : str) : lstrip (lstrip s) = lstrip s.
Proof.
  destruct (lstrip s) as [|c r] eqn:E; [reflexivity|].
  simpl. rewrite (lstrip_head _ E). reflexivity.
Qed.

Lemma lstrip_length (s : str) : length (lstrip s) <= length s.
Proof.
  induction s as [|c s IH]; simpl; [lia|].
  destruct (is_space c); simpl; lia.
Qed.

Lemma lstrip_app (a b : str) :
  lstrip (a ++ b) = match lstrip a with [] => lstrip b | _ => lstrip a ++ b end.
Proof.
  induction a as [|c a IH]; simpl; [reflexivity|].
  destruct (is_space c); [exact IH | reflexivity].
Qed.

Lemma rstrip_cons (c : ascii) (r : str) :
  rstrip (c :: r) =
  if is_space c && is_empty (rstrip r) then [] else c :: rstrip r.
Proof.
  unfold rstrip; simpl. rewrite lstrip_app.
  destruct (lstrip (rev r)) as [|x l] eqn:E; simpl.
  - destruct (is_space c); reflexivity.
  - rewrite rev_app_distr; simpl.
    replace (is_empty (rev l ++ [x])) with false
      by (destruct (rev l); reflexivity).
    rewrite andb_false_r. reflexivity.
Qed.

Lemma rstrip_nil : rstrip [] = [].
Proof. reflexivity. Qed.

Lemma rstrip_app_space (s w : str) : all_space w -> rstrip (s ++ w) = rstrip s.
Proof.
  intros H. unfold rstrip. rewrite rev_app_distr, lstrip_app_space; auto.
  apply Forall_rev; exact H.
Qed.

Lemma rstrip_idem (s : str) : rstrip (rstrip s) = rstrip s.
Proof.
  unfold rstrip. rewrite rev_involutive, lstrip_idem. reflexivity.
Qed.

Lemma rstrip_length (s : str) : length (rstrip s) <= length s.
Proof.
  unfold rstrip. rewrite length_rev, <- (length_rev s). apply lstrip_length.
Qed.

Lemma rstrip_decomp (s : str) : exists w, s = rstrip s ++ w /\ all_space w.
Proof.
  destruct (lstrip_decomp (rev s)) as (w & Hw & Hs).
  exists (rev w); split; [|apply Forall_rev; exact Hs].
  unfold rstrip. rewrite <- rev_app_distr, <- Hw, rev_involutive. reflexivity.
Qed.

Lemma strip_comm (s : str) : lstrip (rstrip s) = rstrip (lstrip s).
Proof.
  induction s as [|c s IH]; [reflexivity|].
  rewrite rstrip_cons. cbn [lstrip].
  destruct (is_space c) eqn:E; cbn [andb].
  - destruct (rstrip s) as [|x r] eqn:Er; cbn [is_empty].
    + rewrite <- IH; reflexivity.
    + cbn [lstrip]. rewrite E. exact IH.
  - cbn [lstrip]. rewrite E, rstrip_cons, E. reflexivity.
Qed.

Lemma strip_idem (s : str) : strip (strip s) = strip s.
Proof.
  unfold strip. rewrite (strip_comm (lstrip (rstrip s))), lstrip_idem.
  rewrite <- strip_comm, rstrip_idem. reflexivity.
Qed.

Lemma strip_length (s : str) : length (strip s) <= length s.
Proof.
  unfold strip. pose proof (lstrip_length (rstrip s)).
  pose proof (rstrip_length s). lia.
Qed.

Lemma strip_decomp (s : str) :
  exists w0 w2, s = w0 ++ strip s ++ w2 /\ all_space w0 /\ all_space w2.
Proof.
  destruct (rstrip_decomp s) as (w2 & H2 & Hw2).
  destruct (lstrip_decomp (rstrip s)) as (w0 & H0 & Hw0).
  exists w0, w2; repeat split; auto.
  unfold strip. rewrite app_assoc, <- H0. exact H2.
Qed.

Lemma strip_pad (w0 s w2 : str) :
  all_space w0 -> all_space w2 -> strip (w0 ++ s ++ w2) = strip s.
Proof.
  intros H0 H2. unfold strip.
  rewrite app_assoc, rstrip_app_space, strip_comm, lstrip_app_space by auto.
  symmetry; apply strip_comm.
Qed.

Lemma strip_head (s : str) (c : ascii) (r : str) :
  strip s = c :: r -> is_space c = false.
Proof. apply lstrip_head. Qed.

(** A string that begins with a character that is no whitespace keeps it
    under [strip]. *)
Lemma strip_cons_nonspace (c : ascii) (r : str) :
  is_space c = false -> strip (c :: r) = c :: rstrip r.
Proof.
  intros E. unfold strip. rewrite rstrip_cons, E. simpl. rewrite E.
  reflexivity.
Qed.

Lemma rstrip_app_nonspace (a t : str) (c : ascii) :
  is_space c = false -> rstrip (a ++ t ++ [c]) = a ++ t ++ [c].
Proof.
  intros E. unfold rstrip. rewrite app_assoc, rev_app_distr. simpl.
  rewrite E. simpl. rewrite rev_involutive. reflexivity.
Qed.

Lemma split_ws_aux_token (tok cur rest : str) :
  no_space tok ->
  split_ws_aux cur (tok ++ rest) = split_ws_aux (rev tok ++ cur) rest.
Proof.
  intros H; revert cur; induction H as [|c tok Hc Htok IH]; intros cur; simpl.
  - reflexivity.
  - rewrite Hc, IH, <- app_assoc. reflexivity.
Qed.

Lemma split_ws_aux_space (w rest : str) :
  all_space w -> split_ws_aux [] (w ++ rest) = split_ws_aux [] rest.
Proof.
  induction 1 as [|c w Hc Hw IH]; simpl; [reflexivity|].
  rewrite Hc; exact IH.
Qed.

Lemma split_ws_aux_last (tok cur : str) :
  no_space tok ->
  split_ws_aux cur tok =
  match rev tok ++ cur with [] => [] | x => [rev x] end.
Proof.
  intros H. rewrite <- (app_nil_r tok) at 1.
  rewrite split_ws_aux_token by exact H. simpl.
  destruct (rev tok ++ cur); reflexivity.
Qed.

Lemma split_ws_two (d w t : str) :
  no_space d -> d <> [] -> all_space w -> w <> [] -> no_space t -> t <> [] ->
  split_ws (d ++ w ++ t) = [d; t].
Proof.
  intros Hd Hd' Hw Hw' Ht Ht'. unfold split_ws.
  rewrite split_ws_aux_token, app_nil_r by exact Hd.
  destruct w as [|c w]; [congruence|]. inversion Hw as [|? ? Hc Hw0]; subst.
  simpl. rewrite Hc.
  destruct (rev d) eqn:E.
  { apply (f_equal (@rev _)) in E. rewrite rev_involutive in E. contradiction. }
  rewrite <- E, rev_involutive, split_ws_aux_space by exact Hw0.
  rewrite split_ws_aux_last, app_nil_r by exact Ht.
  destruct (rev t) eqn:E'.
  { apply (f_equal (@rev _)) in E'. rewrite rev_involutive in E'. contradiction. }
  rewrite <- E', rev_involutive. reflexivity.
Qed.

Lemma split_on_aux_piece (sep : ascii) (tok cur rest : str) :
  ~ In sep tok ->
  split_on_aux sep cur (tok ++ rest) = split_on_aux sep (rev tok ++ cur) rest.
Proof.
  revert cur; induction tok as [|c tok IH]; intros cur H; simpl.
  - reflexivity.
  - destruct (ascii_eqb c sep) eqn:E.
    + apply ascii_eqb_eq in E. exfalso; apply H; left; exact E.
    + rewrite IH, <- app_assoc by (intros Hin; apply H; right; exact Hin).
      reflexivity.
Qed.

Lemma split_on_aux_last (sep : ascii) (tok cur : str) :
  ~ In sep tok -> split_on_aux sep cur tok = [rev (rev tok ++ cur)].
Proof.
  intros H. rewrite <- (app_nil_r tok) at 1.
  rewrite split_on_aux_piece by exact H. reflexivity.
Qed.

Lemma split_on_three (sep : ascii) (a b c : str) :
  ~ In sep a -> ~ In sep b -> ~ In sep c ->
  split_on sep (a ++ sep :: b ++ sep :: c) = [a; b; c].
Proof.
  intros Ha Hb Hc. unfold split_on.
  rewrite split_on_aux_piece, app_nil_r by exact Ha.
  simpl. rewrite ascii_eqb_refl, rev_involutive.
  rewrite split_on_aux_piece, app_nil_r by exact Hb.
  simpl. rewrite ascii_eqb_refl, rev_involutive.
  rewrite split_on_aux_last, app_nil_r, rev_involutive by exact Hc.
  reflexivity.
Qed.

(** ** The sort *)

Lemma insert_event_perm (x : OutputEvent) (l : list OutputEvent) :
  Permutation (x :: l) (insert_event x l).
Proof.
  induction l as [|y l IH]; simpl; [reflexivity|].
  destruct (key_ltb (sort_key y) (sort_key x)); [|reflexivity].
  rewrite perm_swap. constructor. exact IH.
Qed.

Lemma sort_events_perm (l : list OutputEvent) : Permutation l (sort_events l).
Proof.
  induction l as [|x l IH]; simpl; [constructor|].
  rewrite <- insert_event_perm. constructor. exact IH.
Qed.

Lemma insert_event_sorted (x : OutputEvent) (l : list OutputEvent) :
  StronglySorted key_le l -> StronglySorted key_le (insert_event x l).
Proof.
  induction 1 as [|y l Hl IH Hy]; simpl.
  - constructor; constructor.
  - destruct (key_ltb (sort_key y) (sort_key x)) eqn:E.
    + constructor; [exact IH|].
      rewrite <- insert_event_perm. constructor; [|exact Hy].
      apply key_ltb_asym; exact E.
    + constructor; [constructor; assumption|].
      constructor; [exact E|].
      rewrite Forall_forall in *. intros z Hz.
      unfold key_le in *. eapply key_ltb_le_trans; [exact E | auto].
Qed.

Lemma sort_events_sorted (l : list OutputEvent) :
  StronglySorted key_le (sort_events l).
Proof.
  induction l as [|x l IH]; simpl; [constructor|].
  apply insert_event_sorted; exact IH.
Qed.

Lemma strongly_sorted_nth (l : list OutputEvent) :
  StronglySorted key_le l ->
  forall i j a b, nth_error l i = Some a -> nth_error l j = Some b ->
                  i < j -> key_le a b.
Proof.
  induction 1 as [|x l Hl IH Hx]; intros i j a b Hi Hj Hlt.
  - destruct i; discriminate.
  - destruct j as [|j]; [lia|]. simpl in Hj.
    destruct i as [|i]; simpl in Hi.
    + injection Hi as <-. rewrite Forall_forall in Hx.
      apply Hx. eapply nth_error_In; eassumption.
    + eapply IH; eauto. lia.
Qed.

Lemma filter_insert_event (k : str * str) (x : OutputEvent) (l : list OutputEvent) :
  filter (has_key k) (insert_event x l) = filter (has_key k) (x :: l).
Proof.
  induction l as [|y l IH]; [reflexivity|].
  cbn [insert_event].
  destruct (key_ltb (sort_key y) (sort_key x)) eqn:E; [|reflexivity].
  cbn [filter] in *. rewrite IH.
  destruct (has_key k x) eqn:Hx, (has_key k y) eqn:Hy; try reflexivity.
  apply has_key_iff in Hx, Hy. rewrite Hx, Hy, key_ltb_irrefl in E.
  discriminate.
Qed.

Lemma sort_events_stable (k : str * str) (l : list OutputEvent) :
  filter (has_key k) (sort_events l) = filter (has_key k) l.
Proof.
  induction l as [|x l IH]; [reflexivity|].
  cbn [sort_events fold_right]. rewrite filter_insert_event.
  cbn [filter]. fold (sort_events l). rewrite IH. reflexivity.
Qed.

Lemma sort_events_precedes (l : list OutputEvent) (i j : nat) (a b : OutputEvent) :
  nth_error (sort_events l) i = Some a ->
  nth_error (sort_events l) j = Some b ->
  key_ltb (sort_key a) (sort_key b) = true -> i < j.
Proof.
  intros Hi Hj Hlt.
  destruct (Nat.lt_trichotomy i j) as [H|[H|H]]; [exact H| |].
  - subst j. rewrite Hi in Hj. injection Hj as <-.
    rewrite key_ltb_irrefl in Hlt; discriminate.
  - assert (key_le b a) as Hle.
    { eapply strongly_sorted_nth; eauto using sort_events_sorted. }
    unfold key_le in Hle. congruence.
Qed.

(** ** Grouping *)

Lemma key_eqb_eq (a b : SlotKey) : key_eqb a b = true <-> a = b.
Proof.
  destruct a as [[a1 a2] a3], b as [[b1 b2] b3]; simpl.
  rewrite !andb_true_iff, !str_eqb_eq.
  split; [intros [[-> ->] ->]; reflexivity | intros H; inversion H; auto].
Qed.

Lemma group_pairs_append (key : SlotKey) (nm : str) (g : SlotGroups) :
  Permutation (group_pairs (grouped_append key nm g))
              (group_pairs g ++ [(key, nm)]).
Proof.
  induction g as [|[k names] g IH]; simpl; [reflexivity|].
  destruct (key_eqb k key) eqn:E; simpl.
  - apply key_eqb_eq in E; subst k.
    rewrite map_app; simpl. rewrite <- !app_assoc.
    apply Permutation_app_head. apply Permutation_app_comm.
  - unfold group_pairs in IH. rewrite IH, app_assoc. reflexivity.
Qed.

Lemma group_pairs_fold (events : list RawRow) (g : SlotGroups) :
  Permutation
    (group_pairs
       (fold_left (fun g ev => grouped_append (slot_key ev) (name ev) g) events g))
    (group_pairs g ++ map (fun ev => (slot_key ev, name ev)) events).
Proof.
  revert g; induction events as [|ev events IH]; intros g; simpl.
  - rewrite app_nil_r; reflexivity.
  - rewrite IH, group_pairs_append, <- app_assoc. reflexivity.
Qed.

Lemma group_pairs_grouped (events : list RawRow) :
  Permutation (group_pairs (grouped events))
              (map (fun ev => (slot_key ev, name ev)) events).
Proof. unfold grouped. rewrite group_pairs_fold. reflexivity. Qed.

Lemma group_events_pairs (events : list RawRow) :
  group_events events =
  flat_map (fun '(key, nm) => emit_name key nm) (group_pairs (grouped events)).
Proof.
  unfold group_events, group_pairs.
  induction (grouped events) as [|[k names] g IH]; simpl; [reflexivity|].
  rewrite flat_map_app, IH. f_equal.
  induction names as [|n names IHn]; simpl; [reflexivity|].
  rewrite IHn; reflexivity.
Qed.

Lemma ungrouped_events_pairs (events : list RawRow) :
  ungrouped_events events =
  flat_map (fun '(key, nm) => emit_name key nm)
           (map (fun ev => (slot_key ev, name ev)) events).
Proof.
  unfold ungrouped_events, emit_row.
  induction events as [|ev events IH]; simpl; [reflexivity|].
  f_equal; exact IH.
Qed.

(** Every row's events stand together, in one block, in the result. *)
Lemma group_events_block (events : list RawRow) (ev : RawRow) :
  In ev events ->
  exists before after,
    group_events events = before ++ emit_row ev ++ after.
Proof.
  intros Hin.
  assert (In (slot_key ev, name ev) (group_pairs (grouped events))) as H.
  { eapply Permutation_in; [symmetry; apply group_pairs_grouped|].
    apply in_map_iff; exists ev; auto. }
  apply in_split in H. destruct H as (l1 & l2 & H).
  rewrite group_events_pairs, H, flat_map_app. simpl.
  eexists _, _; reflexivity.
Qed.

(** ** The matcher *)

Lemma after_app (prev : option ascii) (a b : str) :
  after prev (a ++ b) = after (after prev a) b.
Proof. apply fold_left_app. Qed.

Lemma after_cons (prev : option ascii) (c : ascii) (m : str) :
  after prev (c :: m) = after (Some c) m.
Proof. reflexivity. Qed.

Lemma after_snoc (prev : option ascii) (m : str) (c : ascii) :
  after prev (m ++ [c]) = Some c.
Proof. rewrite after_app; reflexivity. Qed.

Lemma firstn_matched (m rest : str) :
  firstn (length (m ++ rest) - length rest) (m ++ rest) = m.
Proof.
  rewrite length_app, Nat.add_sub, firstn_app, Nat.sub_diag, firstn_all.
  simpl; apply app_nil_r.
Qed.

Section MatcherFacts.

Variable ic : bool.

(** A successful run hands the continuation a suffix of the subject. *)
Lemma many_sound (a : atom) (s : str) :
  forall prev k x, many ic a prev s k = Some x ->
  exists m s', s = m ++ s' /\ k (after prev m) s' = Some x.
Proof.
  induction s as [|c s IH]; intros prev k x; simpl.
  - intros H; exists [], []; auto.
  - destruct (atom_ok ic a c).
    + destruct (many ic a (Some c) s k) eqn:E.
      * intros H; injection H as <-.
        destruct (IH _ _ _ E) as (m & s' & -> & Hk).
        exists (c :: m), s'; auto.
      * intros H; exists [], (c :: s); auto.
    + intros H; exists [], (c :: s); auto.
Qed.

Lemma run_sound (r : regex) :
  forall prev s k x, run ic r prev s k = Some x ->
  exists m s', s = m ++ s' /\ k (after prev m) s' = Some x.
Proof.
  induction r as [|a|a| | |r1 IH1 r2 IH2|r1 IH1 r2 IH2]; intros prev s k x; simpl.
  - intros H; exists [], s; auto.
  - destruct s as [|c s]; [discriminate|].
    destruct (atom_ok ic a c); [|discriminate].
    intros H; exists [c], s; auto.
  - apply many_sound.
  - destruct (at_boundary prev s); [|discriminate].
    intros H; exists [], s; auto.
  - destruct (at_end s); [|discriminate].
    intros H; exists [], s; auto.
  - intros H. destruct (IH1 _ _ _ _ H) as (m1 & s1 & -> & H1).
    destruct (IH2 _ _ _ _ H1) as (m2 & s2 & -> & H2).
    exists (m1 ++ m2), s2. rewrite after_app, app_assoc; auto.
  - destruct (run ic r1 prev s k) eqn:E.
    + intros H; injection H as <-. eauto.
    + eauto.
Qed.

Lemma re_match_sound (r : regex) (prev : option ascii) (s : str)
  (p' : option ascii) (rest : str) :
  re_match ic r prev s = Some (p', rest) ->
  exists m, s = m ++ rest /\ p' = after prev m.
Proof.
  unfold re_match; intros H.
  destruct (run_sound _ _ _ _ H) as (m & s' & -> & Hk).
  injection Hk as <- <-. eauto.
Qed.

(** What a search returns: the text before the match, the match, and
    the rest make up the subject, the pattern matches where the search
    says, and nowhere before. *)
Lemma re_search_sound (r : regex) (s : str) :
  forall prev pre text p' rest,
  re_search ic r prev s = Some (pre, text, (p', rest)) ->
  s = pre ++ text ++ rest /\
  re_match ic r (after prev pre) (text ++ rest) = Some (p', rest) /\
  (forall a b, pre = a ++ b -> b <> [] ->
               re_match ic r (after prev a) (b ++ text ++ rest) = None).
Proof.
  induction s as [|c s IH]; intros prev pre text p' rest; cbn [re_search].
  - destruct (re_match ic r prev []) as [[q t]|] eqn:E; [|discriminate].
    intros H; injection H as <- <- <- <-.
    destruct (re_match_sound _ _ _ E) as (m & Hm & _).
    symmetry in Hm; apply app_eq_nil in Hm; destruct Hm as [-> ->].
    simpl; repeat split; auto.
    intros a b Hab; symmetry in Hab; apply app_eq_nil in Hab.
    destruct Hab; congruence.
  - destruct (re_match ic r prev (c :: s)) as [[q t]|] eqn:E.
    + destruct (re_match_sound _ _ _ E) as (m & Hm & _).
      rewrite Hm, firstn_matched. rewrite Hm in E.
      intros H; injection H as <- <- <- <-.
      simpl; repeat split; auto.
      intros a b Hab; symmetry in Hab; apply app_eq_nil in Hab.
      destruct Hab; congruence.
    + destruct (re_search ic r (Some c) s) as [[[pre0 text0] [q0 t0]]|] eqn:Es;
        [|discriminate].
      intros H; injection H as <- <- <- <-.
      destruct (IH _ _ _ _ _ Es) as (Hs & Hm & Hbefore).
      repeat split.
      * simpl; f_equal; exact Hs.
      * exact Hm.
      * intros a b Hab Hb. destruct a as [|x a].
        -- simpl in Hab; subst b. simpl. rewrite <- Hs. exact E.
        -- simpl in Hab; injection Hab as <- ->.
           rewrite after_cons. apply Hbefore; auto.
Qed.

Lemma re_search_none (r : regex) (s : str) :
  forall prev, re_search ic r prev s = None ->
  forall a b, s = a ++ b -> re_match ic r (after prev a) b = None.
Proof.
  induction s as [|c s IH]; intros prev; cbn [re_search].
  - destruct (re_match ic r prev []) as [[q t]|] eqn:E; [discriminate|].
    intros _ a b Hab; symmetry in Hab; apply app_eq_nil in Hab.
    destruct Hab as [-> ->]; exact E.
  - destruct (re_match ic r prev (c :: s)) as [[q t]|] eqn:E; [discriminate|].
    destruct (re_search ic r (Some c) s) as [[[pre0 text0] cur0]|] eqn:Es;
      [discriminate|].
    intros _ a b Hab. destruct a as [|x a].
    + simpl in Hab; subst b; exact E.
    + simpl in Hab; injection Hab as <- ->.
      rewrite after_cons. eapply IH; eauto.
Qed.

(** The converse: the first position at which the pattern matches is
    the one the search finds. *)
Lemma re_search_first (r : regex) (pre : str) :
  forall prev m rest p',
  re_match ic r (after prev pre) (m ++ rest) = Some (p', rest) ->
  (forall a b, pre = a ++ b -> b <> [] ->
               re_match ic r (after prev a) (b ++ m ++ rest) = None) ->
  re_search ic r prev (pre ++ m ++ rest) = Some (pre, m, (p', rest)).
Proof.
  induction pre as [|c pre IH]; intros prev m rest p' Hm Hbefore.
  - simpl in Hm. simpl app.
    destruct (m ++ rest) as [|x s] eqn:Es; cbn [re_search]; rewrite Hm.
    + apply app_eq_nil in Es; destruct Es as [-> ->]; reflexivity.
    + rewrite <- Es, firstn_matched; reflexivity.
  - simpl app. cbn [re_search].
    pose proof (Hbefore [] (c :: pre) eq_refl) as H0. simpl in H0.
    rewrite H0 by discriminate.
    rewrite (IH (Some c) m rest p'); [reflexivity | exact Hm |].
    intros a b Hab Hb. apply (Hbefore (c :: a) b); [simpl; congruence | exact Hb].
Qed.

Lemma re_search_nowhere (r : regex) (s : str) :
  forall prev,
  (forall a b, s = a ++ b -> re_match ic r (after prev a) b = None) ->
  re_search ic r prev s = None.
Proof.
  induction s as [|c s IH]; intros prev H; cbn [re_search].
  - pose proof (H [] [] eq_refl) as H0; simpl in H0.
    rewrite H0; reflexivity.
  - pose proof (H [] (c :: s) eq_refl) as H0; simpl in H0.
    rewrite H0, IH; [reflexivity|].
    intros a b Hab. apply (H (c :: a) b). simpl; congruence.
Qed.

(** Removing the matches never lengthens a string. *)
Lemma re_sub_from_length (r : regex) (fuel : nat) :
  forall prev s, length (re_sub_from ic fuel r prev s) <= length s.
Proof.
  induction fuel as [|n IH]; intros prev s; cbn [re_sub_from];
    destruct (re_search ic r prev s) as [[[pre text] [p' rest]]|] eqn:E;
    try lia.
  destruct (re_search_sound _ _ _ E) as (Hs & _ & _).
  rewrite length_app. specialize (IH p' rest).
  rewrite Hs, !length_app. lia.
Qed.

Lemma run_word (w : str) :
  forall prev s k,
  run ic (word w) prev s k =
  if word_ok ic w s
  then k (after prev (firstn (length w) s)) (skipn (length w) s)
  else None.
Proof.
  induction w as [|x w IH]; intros prev s k; [reflexivity|].
  destruct w as [|y w].
  - destruct s as [|c s]; [reflexivity|]. cbn -[atom_ok].
    destruct (atom_ok ic (ALit x) c); reflexivity.
  - change (word (x :: y :: w)) with (Seq (One (ALit x)) (word (y :: w))).
    cbn [run]. destruct s as [|c s]; [reflexivity|].
    cbn [word_ok]. destruct (atom_ok ic (ALit x) c); [|reflexivity].
    rewrite IH. reflexivity.
Qed.

(** A greedy run of [\s] in front of something that cannot start with
    whitespace takes the whole run of whitespace. *)
Lemma many_space_run (ws : str) :
  forall prev rest k,
  all_space ws ->
  next_is_space rest = false ->
  (forall p c t, is_space c = true -> k p (c :: t) = None) ->
  many ic ASpace prev (ws ++ rest) k = k (after prev ws) rest.
Proof.
  induction ws as [|c ws IH]; intros prev rest k Hws Hrest Hk.
  - simpl. destruct rest as [|x rest]; [reflexivity|].
    simpl in Hrest. simpl. rewrite Hrest. reflexivity.
  - inversion Hws as [|? ? Hc Hws']; subst.
    cbn [app many atom_ok]. rewrite Hc, after_cons.
    rewrite IH by assumption.
    destruct (k (after (Some c) ws) rest) eqn:E; [reflexivity|].
    apply Hk; exact Hc.
Qed.

End MatcherFacts.

(** ** The mode pattern *)

Lemma alt_sound (ic : bool) (r1 r2 : regex) (prev : option ascii) (s : str)
  (k : cont) (x : cursor) :
  run ic (Alt r1 r2) prev s k = Some x ->
  run ic r1 prev s k = Some x \/ run ic r2 prev s k = Some x.
Proof.
  simpl. destruct (run ic r1 prev s k); [left | right]; assumption.
Qed.

Lemma word_ok_exact (w s : str) :
  word_ok false w s = true -> s = w ++ skipn (length w) s.
Proof.
  revert s; induction w as [|x w IH]; intros [|c s]; simpl;
    try discriminate; try reflexivity.
  rewrite andb_true_iff, ascii_eqb_eq. intros [-> H].
  f_equal; apply IH; exact H.
Qed.

Lemma firstn_app_exact (w post : str) : firstn (length w) (w ++ post) = w.
Proof.
  rewrite firstn_app, Nat.sub_diag, firstn_all. simpl; apply app_nil_r.
Qed.

Lemma skipn_app_exact (w post : str) : skipn (length w) (w ++ post) = post.
Proof.
  rewrite skipn_app, Nat.sub_diag, skipn_all. reflexivity.
Qed.

Lemma mode_word_sound (w : str) (prev : option ascii) (s : str) (cur : cursor) :
  run false (word w) prev s
      (fun p' s' => if at_boundary p' s' then Some (p', s') else None) = Some cur ->
  exists post, s = w ++ post /\ at_boundary (after prev w) post = true
               /\ cur = (after prev w, post).
Proof.
  rewrite run_word. destruct (word_ok false w s) eqn:E; [|discriminate].
  apply word_ok_exact in E. set (post := skipn (length w) s) in *.
  rewrite E, firstn_app_exact.
  destruct (at_boundary (after prev w) post) eqn:B; [|discriminate].
  intros H; injection H as <-. exists post; auto.
Qed.

Lemma mode_match_sound (prev : option ascii) (s : str) (cur : cursor) :
  re_match false MODE_PATTERN prev s = Some cur ->
  exists tok post,
    s = tok ++ post /\ In tok mode_tokens /\
    at_boundary prev s = true /\
    at_boundary (last_char tok) post = true /\
    cur = (last_char tok, post).
Proof.
  unfold re_match, MODE_PATTERN. cbn [run].
  destruct (at_boundary prev s) eqn:B; [|discriminate].
  intros H. cbn [alt_of] in H.
  assert (forall w, w <> [] -> after prev w = last_char w) as Hlast.
  { intros [|c w] Hw; [congruence | reflexivity]. }
  unfold mode_tokens.
  repeat (apply alt_sound in H; destruct H as [H|H]);
    apply mode_word_sound in H; destruct H as (post & -> & Hb & ->);
    rewrite Hlast in * by discriminate;
    eexists _, post; (repeat split; [| exact Hb]); simpl; auto.
Qed.

Lemma mode_match_complete (prev : option ascii) (tok post : str) :
  In tok mode_tokens ->
  at_boundary prev (tok ++ post) = true ->
  at_boundary (last_char tok) post = true ->
  re_match false MODE_PATTERN prev (tok ++ post) = Some (last_char tok, post).
Proof.
  intros Hin B1 B2.
  unfold re_match, MODE_PATTERN. cbn [run alt_of]. rewrite B1.
  unfold mode_tokens in Hin; simpl in Hin.
  destruct Hin as [<-|[<-|[<-|[<-|[]]]]]; cbn in *; rewrite B2; reflexivity.
Qed.

(** The mode that [detect_mode] returns is the token of the first
    occurrence. *)
Lemma detect_mode_first (s pre tok post : str) :
  mode_occurrence s pre tok post ->
  (forall pre' tok' post',
     mode_occurrence s pre' tok' post' -> length pre <= length pre') ->
  detect_mode s = tok.
Proof.
  intros (Hs & Hin & B1 & B2) Hfirst. unfold detect_mode.
  rewrite Hs, (@re_search_first false MODE_PATTERN pre None tok post (last_char tok));
    [reflexivity | apply mode_match_complete; assumption |].
  intros a b Hab Hb.
  destruct (re_match false MODE_PATTERN (after None a) (b ++ tok ++ post))
    as [cur|] eqn:E; [|reflexivity].
  apply mode_match_sound in E.
  destruct E as (tok' & post' & Hs' & Hin' & B1' & B2' & _).
  assert (mode_occurrence s a tok' post') as Hocc.
  { repeat split; auto.
    - rewrite Hs, Hab, <- app_assoc, Hs'. reflexivity.
    - unfold last_char. rewrite <- Hs'. exact B1'. }
  apply Hfirst in Hocc. rewrite Hab, length_app in Hocc.
  destruct b; [congruence | simpl in Hocc; lia].
Qed.

Lemma detect_mode_none (s : str) :
  (forall pre tok post, ~ mode_occurrence s pre tok post) ->
  detect_mode s = [].
Proof.
  intros Hnone. unfold detect_mode.
  rewrite re_search_nowhere; [reflexivity|].
  intros a b Hab.
  destruct (re_match false MODE_PATTERN (after None a) b) as [cur|] eqn:E;
    [|reflexivity].
  apply mode_match_sound in E.
  destruct E as (tok & post & Hs & Hin & B1 & B2 & _).
  exfalso; apply (Hnone a tok post).
  repeat split; auto.
  - rewrite Hab, Hs; reflexivity.
  - unfold last_char. rewrite <- Hs. exact B1.
Qed.

(** Conversely, what [detect_mode] returns, when it is not empty, is an
    occurrence before which there is none. *)
Lemma detect_mode_occurrence (s : str) :
  detect_mode s <> [] ->
  exists pre post,
    mode_occurrence s pre (detect_mode s) post /\
    forall pre' tok' post',
      mode_occurrence s pre' tok' post' -> length pre <= length pre'.
Proof.
  unfold detect_mode.
  destruct (re_search false MODE_PATTERN None s) as [[[pre text] [p' rest]]|] eqn:E;
    [|congruence].
  intros _. apply re_search_sound in E. destruct E as (Hs & Hm & Hbefore).
  pose proof Hm as Hm'. apply mode_match_sound in Hm'.
  destruct Hm' as (tok & post & Ht & Hin & B1 & B2 & Hcur).
  injection Hcur as -> ->.
  apply app_inv_tail in Ht. subst text.
  exists pre, post. split; [repeat split; auto|].
  intros pre' tok' post' (Hs' & Hin' & B1' & B2').
  destruct (Nat.le_gt_cases (length pre) (length pre')) as [H|H]; [exact H|].
  exfalso.
  assert (exists b, pre = pre' ++ b /\ b <> []) as (b & Hb & Hne).
  { rewrite Hs' in Hs.
    exists (firstn (length pre - length pre') (tok' ++ post')).
    assert (pre = firstn (length pre) (pre' ++ tok' ++ post')) as Hp
      by (rewrite Hs, firstn_app_exact; reflexivity).
    rewrite firstn_app in Hp. rewrite firstn_all2 in Hp by lia.
    split; [exact Hp|].
    intros Hnil. rewrite Hnil, app_nil_r in Hp. rewrite Hp in H. lia. }
  specialize (Hbefore pre' b Hb Hne).
  assert (b ++ tok ++ post = tok' ++ post') as Heq.
  { apply (app_inv_head pre'). rewrite app_assoc, <- Hb, <- Hs, Hs'. reflexivity. }
  rewrite Heq, mode_match_complete in Hbefore; auto; discriminate.
Qed.

(** *** The name [b2b2b2b2b] carries no mode *)

Lemma mode_match_prev_word (prev : option ascii) (s : str) :
  prev_is_word prev = true -> re_match false MODE_PATTERN prev s = None.
Proof.
  intros Hp.
  destruct (re_match false MODE_PATTERN prev s) as [cur|] eqn:E; [|reflexivity].
  apply mode_match_sound in E.
  destruct E as (tok & post & -> & Hin & B1 & _).
  unfold at_boundary in B1. rewrite Hp in B1.
  unfold mode_tokens in Hin; simpl in Hin.
  destruct Hin as [<-|[<-|[<-|[<-|[]]]]]; discriminate.
Qed.

Lemma mode_match_space (prev : option ascii) (s : str) :
  next_is_space s = true -> re_match false MODE_PATTERN prev s = None.
Proof.
  intros Hs.
  destruct (re_match false MODE_PATTERN prev s) as [cur|] eqn:E; [|reflexivity].
  apply mode_match_sound in E.
  destruct E as (tok & post & -> & Hin & _).
  unfold mode_tokens in Hin; simpl in Hin.
  destruct Hin as [<-|[<-|[<-|[<-|[]]]]]; discriminate.
Qed.

Lemma mode_match_nil (prev : option ascii) :
  re_match false MODE_PATTERN prev [] = None.
Proof.
  destruct (re_match false MODE_PATTERN prev []) as [cur|] eqn:E; [|reflexivity].
  apply mode_match_sound in E.
  destruct E as (tok & post & H & Hin & _).
  unfold mode_tokens in Hin; simpl in Hin.
  destruct Hin as [<-|[<-|[<-|[<-|[]]]]]; discriminate.
Qed.

Lemma re_search_cons_none (ic : bool) (r : regex) (prev : option ascii)
  (c : ascii) (s : str) :
  re_match ic r prev (c :: s) = None ->
  re_search ic r (Some c) s = None ->
  re_search ic r prev (c :: s) = None.
Proof. intros H1 H2. cbn [re_search]. rewrite H1, H2. reflexivity. Qed.

Lemma mode_search_spaces (w : str) :
  all_space w -> forall prev, re_search false MODE_PATTERN prev w = None.
Proof.
  induction 1 as [|c w Hc Hw IH]; intros prev.
  - cbn [re_search]. rewrite mode_match_nil. reflexivity.
  - apply re_search_cons_none; [|apply IH].
    apply mode_match_space. exact Hc.
Qed.

Lemma mode_search_skip_spaces (w t : str) :
  all_space w ->
  (forall prev, prev_is_word prev = false ->
                re_search false MODE_PATTERN prev t = None) ->
  forall prev, prev_is_word prev = false ->
               re_search false MODE_PATTERN prev (w ++ t) = None.
Proof.
  intros Hw Ht. induction Hw as [|c w Hc Hw IH]; intros prev Hp.
  - apply Ht; exact Hp.
  - simpl app. apply re_search_cons_none.
    + apply mode_match_space. exact Hc.
    + apply IH. simpl. apply is_space_not_word; exact Hc.
Qed.

Lemma py_lower_b (c : ascii) :
  py_lower c = "b"%char -> c = "b"%char \/ c = "B"%char.
Proof.
  destruct c as [[] [] [] [] [] [] [] []]; vm_compute; intros H;
    try discriminate; auto.
Qed.

Lemma py_lower_2 (c : ascii) : py_lower c = "2"%char -> c = "2"%char.
Proof.
  destruct c as [[] [] [] [] [] [] [] []]; vm_compute; intros H;
    try discriminate; auto.
Qed.

Lemma mode_search_b2b_core (core w2 : str) :
  lower core = L "b2b2b2b2b" -> all_space w2 ->
  forall prev, prev_is_word prev = false ->
               re_search false MODE_PATTERN prev (core ++ w2) = None.
Proof.
  intros Hcore Hw2 prev Hp.
  destruct core as [|c0 [|c1 [|c2 [|c3 [|c4 [|c5 [|c6 [|c7 [|c8 [|c9 core]]]]]]]]]];
    try discriminate Hcore.
  injection Hcore as H0 H1 H2 H3 H4 H5 H6 H7 H8.
  apply py_lower_2 in H1, H3, H5, H7. subst c1 c3 c5 c7.
  assert (forall c, py_lower c = "b"%char -> is_word c = true) as Hb.
  { intros c H. apply py_lower_b in H. destruct H as [-> | ->]; reflexivity. }
  simpl app.
  repeat (apply re_search_cons_none;
          [ try (apply mode_match_prev_word; cbn [prev_is_word];
                 solve [auto | reflexivity]) | ]).
  - destruct (re_match false MODE_PATTERN prev _) as [cur|] eqn:E; [|reflexivity].
    apply mode_match_sound in E.
    destruct E as (tok & post & Hs & Hin & _ & B2 & _).
    unfold mode_tokens in Hin; simpl in Hin.
    destruct Hin as [<-|[<-|[<-|[<-|[]]]]]; simpl in Hs; inversion Hs; subst.
    + discriminate B2.
    + discriminate H0.
  - apply mode_search_spaces. exact Hw2.
Qed.

Lemma detect_mode_b2b_literal (combined_name : str) :
  is_b2b_literal combined_name = true -> detect_mode combined_name = [].
Proof.
  unfold is_b2b_literal. rewrite str_eqb_eq. intros H.
  destruct (strip_decomp combined_name) as (w0 & w2 & Hs & Hw0 & Hw2).
  unfold detect_mode. rewrite Hs.
  rewrite mode_search_skip_spaces; auto.
  intros prev Hp. apply mode_search_b2b_core; auto.
Qed.

(** ** Fuel *)

Section Fuel.

Variable ic : bool.
Variable r : regex.
Hypothesis Hne : nonempty_matches ic r.

Lemma re_search_shorter (prev : option ascii) (s pre text : str)
  (p' : option ascii) (rest : str) :
  re_search ic r prev s = Some (pre, text, (p', rest)) ->
  length rest < length s.
Proof.
  intros H. apply re_search_sound in H. destruct H as (Hs & Hm & _).
  apply Hne in Hm. rewrite Hs, !length_app in *. lia.
Qed.

(** The rounds never run out: more fuel than the length of the
    subject changes nothing. *)
Lemma re_split_from_enough (n : nat) :
  forall prev s, length s <= n ->
  re_split_from ic n r prev s = re_split_from ic (length s) r prev s.
Proof.
  induction n as [n IH] using lt_wf_ind. intros prev s Hn.
  destruct n as [|n]; [replace (length s) with 0 by lia; reflexivity|].
  cbn [re_split_from].
  destruct (re_search ic r prev s) as [[[pre text] [p' rest]]|] eqn:E.
  - pose proof (re_search_shorter _ _ E) as Hlt.
    destruct (length s) as [|m] eqn:Em; [lia|].
    cbn [re_split_from]. rewrite E.
    rewrite (IH n) by lia. rewrite (IH m) by lia. reflexivity.
  - destruct (length s); cbn [re_split_from]; rewrite E; reflexivity.
Qed.

Lemma re_sub_from_enough (n : nat) :
  forall prev s, length s <= n ->
  re_sub_from ic n r prev s = re_sub_from ic (length s) r prev s.
Proof.
  induction n as [n IH] using lt_wf_ind. intros prev s Hn.
  destruct n as [|n]; [replace (length s) with 0 by lia; reflexivity|].
  cbn [re_sub_from].
  destruct (re_search ic r prev s) as [[[pre text] [p' rest]]|] eqn:E.
  - pose proof (re_search_shorter _ _ E) as Hlt.
    destruct (length s) as [|m] eqn:Em; [lia|].
    cbn [re_sub_from]. rewrite E.
    rewrite (IH n) by lia. rewrite (IH m) by lia. reflexivity.
  - destruct (length s); cbn [re_sub_from]; rewrite E; reflexivity.
Qed.

(** One round of [sub] and of [split], whatever the fuel. *)
Lemma re_sub_step (prev : option ascii) (s pre text : str)
  (p' : option ascii) (rest : str) :
  re_search ic r prev s = Some (pre, text, (p', rest)) ->
  re_sub_from ic (length s) r prev s
  = pre ++ re_sub_from ic (length rest) r p' rest.
Proof.
  intros E. pose proof (re_search_shorter _ _ E) as Hlt.
  destruct (length s) as [|m] eqn:Em; [lia|].
  cbn [re_sub_from]. rewrite E.
  rewrite (re_sub_from_enough (n := m)) by lia. reflexivity.
Qed.

End Fuel.

Lemma re_sub_from_nomatch (ic : bool) (r : regex) (n : nat)
  (prev : option ascii) (s : str) :
  re_search ic r prev s = None -> re_sub_from ic n r prev s = s.
Proof. intros E. destruct n; cbn [re_sub_from]; rewrite E; reflexivity. Qed.

(** ** The suffix pattern *)

Lemma suffix_match_head (prev : option ascii) (s : str) :
  next_is_space s = false -> re_match true SUFFIX_PATTERN prev s = None.
Proof.
  unfold re_match, SUFFIX_PATTERN. cbn [run].
  destruct s as [|c s]; [reflexivity|]. cbn [next_is_space atom_ok].
  intros ->. reflexivity.
Qed.

Lemma suffix_nonempty : nonempty_matches true SUFFIX_PATTERN.
Proof.
  intros prev s p' rest. unfold re_match, SUFFIX_PATTERN. cbn [run].
  destruct s as [|c s]; [discriminate|].
  destruct (atom_ok true ASpace c); [|discriminate].
  intros H. apply many_sound in H. destruct H as (m1 & s1 & -> & H).
  apply run_sound in H. destruct H as (m2 & s2 & -> & H).
  destruct (at_end s2); [|discriminate]. injection H as _ <-. simpl. rewrite !length_app. lia.
Qed.

(** Cleaning keeps a first character that is no whitespace. *)
Lemma re_sub_suffix_head (c : ascii) (r : str) :
  is_space c = false ->
  exists r', re_sub true SUFFIX_PATTERN (c :: r) = c :: r'.
Proof.
  intros Hc. unfold re_sub.
  destruct (re_search true SUFFIX_PATTERN None (c :: r))
    as [[[pre text] [p' rest]]|] eqn:E.
  - rewrite (re_sub_step suffix_nonempty _ _ E).
    apply re_search_sound in E. destruct E as (Hs & Hm & _).
    destruct pre as [|x pre].
    + simpl in Hs, Hm. rewrite <- Hs, suffix_match_head in Hm by exact Hc.
      discriminate.
    + injection Hs as <- _. simpl. eauto.
  - rewrite re_sub_from_nomatch by exact E. eauto.
Qed.

Lemma clean_name_nonempty (nm : str) :
  strip nm = nm -> nm <> [] -> clean_name nm <> [].
Proof.
  intros Hs Hne. destruct nm as [|c r]; [congruence|].
  pose proof (strip_head _ Hs) as Hc.
  destruct (@re_sub_suffix_head c r Hc) as (r' & Hr).
  unfold clean_name. rewrite Hr, strip_cons_nonspace by exact Hc.
  discriminate.
Qed.

Lemma many_sound_ok (ic : bool) (a : atom) (s : str) :
  forall prev k x, many ic a prev s k = Some x ->
  exists m s', s = m ++ s' /\ Forall (fun c => atom_ok ic a c = true) m
               /\ k (after prev m) s' = Some x.
Proof.
  induction s as [|c s IH]; intros prev k x; simpl.
  - intros H; exists [], []; auto.
  - destruct (atom_ok ic a c) eqn:Ec.
    + destruct (many ic a (Some c) s k) eqn:E.
      * intros H; injection H as <-.
        destruct (IH _ _ _ E) as (m & s' & -> & Hm & Hk).
        exists (c :: m), s'; auto.
      * intros H; exists [], (c :: s); auto.
    + intros H; exists [], (c :: s); auto.
Qed.

Lemma word_ok_lower_sound (w s : str) :
  word_ok true w s = true ->
  s = firstn (length w) s ++ skipn (length w) s /\
  lower (firstn (length w) s) = lower w.
Proof.
  revert s; induction w as [|x w IH]; intros s; [auto|].
  destruct s as [|c s]; [discriminate|]. cbn [word_ok atom_ok].
  rewrite andb_true_iff, ascii_eqb_eq. intros [Hc Hw].
  destruct (IH _ Hw) as (H1 & H2). simpl. rewrite Hc, H2, <- H1. auto.
Qed.

Lemma word_ok_lower_complete (w sfx tail : str) :
  lower sfx = lower w -> word_ok true w (sfx ++ tail) = true.
Proof.
  revert sfx; induction w as [|x w IH]; intros sfx H; [reflexivity|].
  destruct sfx as [|c sfx]; [discriminate|]. injection H as Hc Hw.
  cbn [app word_ok atom_ok]. rewrite Hc, ascii_eqb_refl. simpl.
  apply IH; exact Hw.
Qed.

Lemma lower_length (a b : str) : lower a = lower b -> length a = length b.
Proof.
  intros H. apply (f_equal (@length _)) in H. unfold lower in H.
  rewrite !length_map in H. exact H.
Qed.

Lemma after_nonempty (prev : option ascii) (m : str) :
  m <> [] -> after prev m = last_char m.
Proof. destruct m; [congruence | reflexivity]. Qed.

Lemma after_last (prev : option ascii) (a b : str) :
  b <> [] -> after prev (a ++ b) = last_char b.
Proof. intros H. rewrite after_app. apply after_nonempty; exact H. Qed.

Lemma space_not_suffix_head (c : ascii) :
  is_space c = true ->
  ascii_eqb (py_lower c) "a"%char = false /\
  ascii_eqb (py_lower c) "("%char = false.
Proof.
  destruct c as [[] [] [] [] [] [] [] []]; vm_compute; intros H;
    try discriminate; auto.
Qed.

Lemma suffix_word_head (sfx tail : str) :
  is_suffix_word sfx -> next_is_space (sfx ++ tail) = false.
Proof.
  intros [H|H]; (destruct sfx as [|c sfx]; [discriminate|]);
    injection H as Hc _; simpl;
    destruct (is_space c) eqn:E; auto;
    destruct (space_not_suffix_head _ E) as (H1 & H2);
    rewrite Hc in *; discriminate.
Qed.

Lemma suffix_word_nonempty (sfx : str) : is_suffix_word sfx -> sfx <> [].
Proof. intros [H|H] ->; discriminate. Qed.

Lemma suffix_match_sound (prev : option ascii) (s : str) (p' : option ascii)
  (rest : str) :
  re_match true SUFFIX_PATTERN prev s = Some (p', rest) ->
  exists w sfx,
    s = w ++ sfx ++ rest /\ w <> [] /\ all_space w /\ is_suffix_word sfx /\
    at_end rest = true.
Proof.
  unfold re_match, SUFFIX_PATTERN. cbn [run].
  destruct s as [|c s]; [discriminate|].
  destruct (atom_ok true ASpace c) eqn:Ec; [|discriminate].
  intros H. apply many_sound_ok in H. destruct H as (m1 & s1 & -> & Hm1 & H).
  cbn [alt_of] in H.
  assert (forall w, w <> [] -> lower w = L "a/v" \/ lower w = L "(live)" ->
            run true (word w) (after (Some c) m1) s1
              (fun p s' => if at_end s' then Some (p, s') else None)
            = Some (p', rest) ->
            exists sfx, s1 = sfx ++ rest /\ is_suffix_word sfx /\ at_end rest = true)
    as Hword.
  { intros w Hw Hlow. rewrite run_word.
    destruct (word_ok true w s1) eqn:Ew; [|discriminate].
    apply word_ok_lower_sound in Ew. destruct Ew as (Hs1 & Hl).
    destruct (at_end (skipn (length w) s1)) eqn:Ee; [|discriminate].
    intros Hx; injection Hx as _ <-.
    exists (firstn (length w) s1). repeat split; auto.
    unfold is_suffix_word. rewrite Hl. exact Hlow. }
  apply alt_sound in H. destruct H as [H|H]; apply Hword in H;
    try discriminate; try (left; reflexivity); try (right; reflexivity);
    destruct H as (sfx & -> & Hsfx & He);
    exists (c :: m1), sfx; repeat split; auto; try discriminate;
    constructor; auto.
Qed.

Lemma suffix_match_complete (prev : option ascii) (w sfx tail : str) :
  w <> [] -> all_space w -> is_suffix_word sfx -> at_end tail = true ->
  re_match true SUFFIX_PATTERN prev (w ++ sfx ++ tail)
  = Some (last_char sfx, tail).
Proof.
  intros Hw Hsp Hsfx He.
  destruct w as [|c ws]; [congruence|]. inversion Hsp as [|? ? Hc Hws]; subst.
  unfold re_match, SUFFIX_PATTERN. cbn [run app atom_ok]. rewrite Hc.
  rewrite many_space_run; [| exact Hws | apply suffix_word_head; exact Hsfx |].
  - cbn [alt_of run]. rewrite !run_word.
    pose proof (suffix_word_nonempty Hsfx) as Hne.
    destruct Hsfx as [H|H].
    + change (L "a/v") with (lower (L "A/V")) in H.
      rewrite word_ok_lower_complete by exact H.
      apply lower_length in H. rewrite <- H.
      rewrite firstn_app_exact, skipn_app_exact, He.
      rewrite after_nonempty by exact Hne. reflexivity.
    + replace (word_ok true (L "A/V") (sfx ++ tail)) with false.
      2:{ destruct sfx as [|x sfx]; [discriminate|]. injection H as Hx _.
          cbn [app word_ok atom_ok L list_ascii_of_string]. rewrite Hx.
          reflexivity. }
      change (L "(live)") with (lower (L "(live)")) in H.
      rewrite word_ok_lower_complete by exact H.
      apply lower_length in H. rewrite <- H.
      rewrite firstn_app_exact, skipn_app_exact, He.
      rewrite after_nonempty by exact Hne. reflexivity.
  - intros p x t Hx. cbn [alt_of run]. rewrite !run_word.
    destruct (space_not_suffix_head _ Hx) as (H1 & H2).
    cbn [word_ok atom_ok L list_ascii_of_string].
    change (py_lower "A") with "a"%char. change (py_lower "(") with "("%char.
    rewrite H1, H2. reflexivity.
Qed.

Lemma app_eq_length_tail (x a y b : str) :
  x ++ a = y ++ b -> length a = length b -> x = y /\ a = b.
Proof.
  revert y; induction x as [|c x IH]; intros [|d y] H Hl; simpl in H.
  - auto.
  - apply (f_equal (@length _)) in H. simpl in H. rewrite length_app in H. lia.
  - apply (f_equal (@length _)) in H. simpl in H. rewrite length_app in H. lia.
  - injection H as -> H. destruct (IH _ H Hl) as [-> ->]. auto.
Qed.

Lemma suffix_word_cases (sfx : str) :
  is_suffix_word sfx ->
  exists c, last_char sfx = Some c /\
            ((length sfx = 3 /\ py_lower c = "v"%char) \/
             (length sfx = 6 /\ py_lower c = ")"%char)).
Proof.
  intros [H|H].
  - destruct sfx as [|c1 [|c2 [|c3 [|c4 sfx]]]]; try discriminate H.
    injection H as _ _ H3. exists c3; auto.
  - destruct sfx as [|c1 [|c2 [|c3 [|c4 [|c5 [|c6 [|c7 sfx]]]]]]];
      try discriminate H.
    injection H as _ _ _ _ _ H6. exists c6; auto.
Qed.

Lemma at_end_cases (s : str) : at_end s = true -> s = [] \/ s = nl.
Proof.
  destruct s as [|c [|d s]]; simpl; try discriminate; auto.
  rewrite ascii_eqb_eq. intros ->; auto.
Qed.

(** A subject that ends with a suffix word is matched up to its very
    end, and the match takes that word. *)
Lemma suffix_match_at_end (x w' sfx' rest y sfx : str) :
  x ++ w' ++ sfx' ++ rest = y ++ sfx ->
  is_suffix_word sfx' -> is_suffix_word sfx -> at_end rest = true ->
  rest = [] /\ x ++ w' = y /\ sfx' = sfx.
Proof.
  intros Heq Hs' Hs He.
  destruct (suffix_word_cases Hs) as (c & Hc & Hcase).
  destruct (suffix_word_cases Hs') as (c' & Hc' & Hcase').
  assert (last_char (y ++ sfx) = Some c) as Hlast.
  { unfold last_char. rewrite after_last by (apply suffix_word_nonempty; exact Hs).
    exact Hc. }
  rewrite <- Heq in Hlast.
  destruct (at_end_cases _ He) as [-> | ->].
  - rewrite app_nil_r in *. split; [reflexivity|].
    unfold last_char in Hlast.
    rewrite app_assoc, after_last in Hlast
      by (apply suffix_word_nonempty; exact Hs').
    rewrite Hc' in Hlast. injection Hlast as ->.
    rewrite app_assoc in Heq. apply app_eq_length_tail in Heq; [exact Heq|].
    destruct Hcase as [[H1 H2]|[H1 H2]], Hcase' as [[H1' H2']|[H1' H2']];
      congruence.
  - exfalso. unfold last_char, nl in Hlast.
    rewrite !app_assoc, after_snoc in Hlast. injection Hlast as <-.
    destruct Hcase as [[_ H]|[_ H]]; vm_compute in H; discriminate H.
Qed.

Lemma suffix_search_nil (prev : option ascii) :
  re_search true SUFFIX_PATTERN prev [] = None.
Proof. reflexivity. Qed.

Lemma suffix_search_found (b w sfx : str) :
  w <> [] -> all_space w -> is_suffix_word sfx ->
  re_search true SUFFIX_PATTERN None (b ++ w ++ sfx) <> None.
Proof.
  intros Hw Hsp Hsfx Hnone.
  pose proof (re_search_none _ _ _ Hnone b (w ++ sfx) eq_refl) as H.
  rewrite <- (app_nil_r sfx) in H.
  rewrite suffix_match_complete in H by auto. discriminate.
Qed.

(** The suffix, in any casing and after any whitespace, is removed with
    that whitespace. *)
Lemma clean_name_suffix (b w sfx : str) :
  w <> [] -> all_space w -> is_suffix_word sfx ->
  clean_name (b ++ w ++ sfx) = strip b.
Proof.
  intros Hw Hsp Hsfx. unfold clean_name, re_sub.
  destruct (re_search true SUFFIX_PATTERN None (b ++ w ++ sfx))
    as [[[pre text] [p' rest]]|] eqn:E;
    [|exfalso; eapply suffix_search_found; eauto].
  rewrite (re_sub_step suffix_nonempty _ _ E).
  apply re_search_sound in E. destruct E as (Hs & Hm & _).
  apply suffix_match_sound in Hm.
  destruct Hm as (w' & sfx' & Ht & Hw' & Hsp' & Hsfx' & He).
  rewrite Ht in Hs. rewrite (app_assoc b) in Hs. symmetry in Hs.
  apply suffix_match_at_end in Hs; auto. destruct Hs as (-> & Hpre & ->).
  simpl. rewrite app_nil_r.
  rewrite <- (@strip_pad [] pre w' (Forall_nil _) Hsp').
  rewrite <- (@strip_pad [] b w (Forall_nil _) Hsp).
  simpl. rewrite Hpre. reflexivity.
Qed.

(** [clean_name] returns its argument exactly when the argument is
    trimmed and the suffix pattern finds no match in it. *)
Lemma clean_name_fixed_iff (t : str) :
  clean_name t = t <->
  strip t = t /\ re_search true SUFFIX_PATTERN None t = None.
Proof.
  split.
  - intros Hfix. split; [rewrite <- Hfix; apply strip_idem|].
    destruct (re_search true SUFFIX_PATTERN None t)
      as [[[pre text] [p' rest]]|] eqn:E; [|reflexivity].
    exfalso. apply (f_equal (@length _)) in Hfix.
    unfold clean_name, re_sub in Hfix.
    rewrite (re_sub_step suffix_nonempty _ _ E) in Hfix.
    pose proof (strip_length
                  (pre ++ re_sub_from true (length rest) SUFFIX_PATTERN p' rest))
      as Hstrip.
    pose proof (re_sub_from_length true SUFFIX_PATTERN (length rest) p' rest)
      as Hsub.
    apply re_search_sound in E. destruct E as (Hs & Hm & _).
    apply suffix_nonempty in Hm.
    rewrite length_app in Hstrip. rewrite Hs in Hfix.
    rewrite !length_app in *. lia.
  - intros [Hs Hnone]. unfold clean_name, re_sub.
    rewrite re_sub_from_nomatch by exact Hnone. exact Hs.
Qed.

(** ** The split pattern *)

Lemma word_ok_length (ic : bool) (w s : str) :
  word_ok ic w s = true -> length w <= length s.
Proof.
  revert s; induction w as [|x w IH]; intros [|c s]; simpl;
    try discriminate; try lia.
  rewrite andb_true_iff. intros [_ H]. apply IH in H. lia.
Qed.

Lemma split_nonempty : nonempty_matches true split_regex.
Proof.
  intros prev s p' rest. unfold re_match, split_regex. cbn [run].
  intros H. apply many_sound in H. destruct H as (m1 & s1 & -> & H).
  cbn [alt_of] in H.
  assert (forall w q, w <> [] ->
            run true (word w) q s1
              (fun p s' => many true ASpace p s' (fun p0 s0 => Some (p0, s0)))
            = Some (p', rest) -> length rest < length s1) as Hword.
  { intros w q Hw. rewrite run_word.
    destruct (word_ok true w s1) eqn:Ew; [|discriminate].
    apply word_ok_length in Ew.
    intros Hm. apply many_sound in Hm. destruct Hm as (m2 & s2 & Hs & Hk).
    injection Hk as _ <-.
    apply (f_equal (@length _)) in Hs. rewrite length_skipn, length_app in Hs.
    destruct w; [congruence | simpl in *; lia]. }
  rewrite length_app.
  repeat (apply alt_sound in H; destruct H as [H|H]);
    apply Hword in H; try discriminate; lia.
Qed.

Lemma re_split_fuel (n : nat) (s : str) :
  length s <= n ->
  re_split_from true n split_regex None s = re_split true split_regex s.
Proof. apply (re_split_from_enough split_nonempty). Qed.

Lemma re_sub_fuel (n : nat) (s : str) :
  length s <= n ->
  re_sub_from true n SUFFIX_PATTERN None s = re_sub true SUFFIX_PATTERN s.
Proof. apply (re_sub_from_enough suffix_nonempty). Qed.

(** ** The loop body of [group_events] *)

Lemma emit_name_split (ev : RawRow) :
  is_b2b_literal (name ev) = false ->
  1 < length (split_pieces (name ev)) ->
  emit_row ev = split_block ev.
Proof.
  intros Hlit Hlen. unfold emit_row, emit_name, slot_key, split_artists.
  rewrite Hlit. apply Nat.ltb_lt in Hlen. rewrite Hlen. reflexivity.
Qed.

Lemma emit_name_single (ev : RawRow) :
  length (split_pieces (name ev)) <= 1 ->
  emit_row ev = [single_event ev (detect_mode (name ev))].
Proof.
  intros Hlen. unfold emit_row, emit_name, slot_key, split_artists.
  destruct (is_b2b_literal (name ev)); [reflexivity|].
  apply Nat.ltb_ge in Hlen. rewrite Hlen. reflexivity.
Qed.

Lemma emit_name_literal (ev : RawRow) :
  is_b2b_literal (name ev) = true ->
  emit_row ev = [single_event ev []].
Proof.
  intros Hlit. unfold emit_row, emit_name, slot_key, split_artists.
  rewrite Hlit. simpl. rewrite detect_mode_b2b_literal by exact Hlit.
  reflexivity.
Qed.

Lemma emit_name_names (key : SlotKey) (nm : str) (e : OutputEvent) :
  trimmed nm -> In e (emit_name key nm) -> ev_name e <> [].
Proof.
  intros [Hs Hne]. unfold emit_name. destruct key as [[st en] sg].
  destruct (1 <? length (split_artists nm)).
  - rewrite in_map_iff. intros (piece & <- & Hin). simpl.
    unfold split_artists in Hin. destruct (is_b2b_literal nm).
    + destruct Hin as [<-|[]]. apply clean_name_nonempty; assumption.
    + unfold split_pieces in Hin. rewrite in_map_iff in Hin.
      destruct Hin as (n & <- & Hn). apply filter_In in Hn.
      destruct Hn as [_ Hn]. destruct (clean_name n); [discriminate|].
      discriminate.
  - intros [<-|[]]. simpl. apply clean_name_nonempty; assumption.
Qed.

Lemma group_events_rows (events : list RawRow) (e : OutputEvent) :
  In e (group_events events) ->
  exists ev, In ev events /\ In e (emit_row ev).
Proof.
  rewrite group_events_pairs, in_flat_map.
  intros ([key nm] & Hin & He).
  eapply Permutation_in in Hin; [|apply group_pairs_grouped].
  rewrite in_map_iff in Hin. destruct Hin as (ev & Hev & Hin).
  injection Hev as <- <-. exists ev; auto.
Qed.

Lemma group_events_names (events : list RawRow) (e : OutputEvent) :
  Forall valid_row events -> In e (group_events events) -> ev_name e <> [].
Proof.
  intros Hvalid He. apply group_events_rows in He.
  destruct He as (ev & Hin & He).
  rewrite Forall_forall in Hvalid. destruct (Hvalid _ Hin) as (_ & _ & Hn & _).
  eapply emit_name_names; eauto.
Qed.

(** ** load_csv *)

Lemma bind_ok {A B : Type} (m : result A) (f : A -> result B) (b : B) :
  bind m f = Ok b -> exists a, m = Ok a /\ f a = Ok b.
Proof. destruct m; simpl; [eauto | discriminate]. Qed.

Lemma get_strip_trimmed (d : dict) (k s : str) :
  get_strip d k = Ok s -> strip s = s.
Proof.
  unfold get_strip. destruct (dict_get d k) as [[v|]|]; try discriminate;
    intros H; injection H as <-; [apply strip_idem | reflexivity].
Qed.

Lemma extract_row_valid (d : dict) (ev : RawRow) :
  extract_row d = Ok (Some ev) -> valid_row ev.
Proof.
  unfold extract_row. intros H.
  apply bind_ok in H. destruct H as (s1 & H1 & H).
  apply bind_ok in H. destruct H as (s2 & H2 & H).
  apply bind_ok in H. destruct H as (s3 & H3 & H).
  apply bind_ok in H. destruct H as (s4 & H4 & H).
  apply get_strip_trimmed in H1, H2, H3, H4.
  destruct s1, s2, s3, s4; simpl in H; try discriminate.
  injection H as <-. unfold valid_row, trimmed; simpl.
  repeat split; auto; discriminate.
Qed.

Lemma extract_rows_valid (ds : list dict) (e : bool) (events : list RawRow) :
  extract_rows ds e = Ok events -> Forall valid_row events.
Proof.
  revert events; induction ds as [|d ds IH]; intros events; simpl.
  - destruct e; [discriminate|]. intros H; injection H as <-. constructor.
  - intros H. apply bind_ok in H. destruct H as (r & Hr & H).
    apply bind_ok in H. destruct H as (evs & Hevs & H).
    injection H as <-. specialize (IH _ Hevs).
    destruct r as [ev|]; [|exact IH].
    constructor; [eapply extract_row_valid; eauto | exact IH].
Qed.

Lemma load_csv_valid (raw_lines : list str) (err : list str)
  (events : list RawRow) :
  load_csv raw_lines = (err, Ok events) -> Forall valid_row events.
Proof.
  unfold load_csv.
  destruct (from_header (map process_line raw_lines)) as [data|].
  - destruct (csv_reader data) as [| |fieldnames rest].
    + intros H; injection H as _ <-. constructor.
    + discriminate.
    + destruct (dict_rows fieldnames rest) as [ds e].
      intros H; injection H as _ H. eapply extract_rows_valid; eauto.
  - intros H; injection H as _ <-. constructor.
Qed.

Lemma from_header_none (processed : list str) :
  (forall line, In line processed -> is_header line = false) ->
  from_header processed = None.
Proof.
  induction processed as [|line rest IH]; intros H; simpl; [reflexivity|].
  rewrite (H line) by (left; reflexivity).
  apply IH. intros l Hl; apply H; right; exact Hl.
Qed.

(** A row that has all four fields is kept exactly when none of them is
    empty once trimmed. *)
Lemma extract_row_present (d : dict) (s e n g : str) :
  dict_get d (L "Start") = Some (VStr s) ->
  dict_get d (L "End") = Some (VStr e) ->
  dict_get d (L "Name") = Some (VStr n) ->
  dict_get d (L "Location") = Some (VStr g) ->
  extract_row d =
  Ok (if is_empty (strip s) || is_empty (strip e) || is_empty (strip n)
         || is_empty (strip g)
      then None
      else Some {| start := strip s; end_ := strip e; name := strip n;
                   stage := strip g |}).
Proof.
  intros Hs He Hn Hg. unfold extract_row, get_strip.
  rewrite Hs, He, Hn, Hg. simpl.
  destruct (is_empty (strip s) || is_empty (strip e) || is_empty (strip n)
            || is_empty (strip g)); reflexivity.
Qed.

(** A field that a short row lacks is bound to [None], and the row
    raises. *)
Lemma extract_row_none (d : dict) (key : str) :
  In key [L "Start"; L "End"; L "Name"; L "Location"] ->
  dict_get d key = Some VNone ->
  extract_row d = Raise AttributeError.
Proof.
  intros Hin Hk. unfold extract_row, get_strip.
  cbn [In] in Hin. destruct Hin as [<-|[<-|[<-|[<-|[]]]]]; rewrite Hk;
    repeat match goal with
      | |- context [dict_get d ?k] => destruct (dict_get d k) as [[?|]|]
      end; reflexivity.
Qed.

(** * The claims *)

(** ** C1: names that split *)

(** C1 does not hold as stated, for every raw name: the name
    [b2b2b2b2b] splits on the separator tokens into the two non-empty
    pieces [2] and [2b], yet [group_events] emits a single record for it,
    not the block of one record per piece. *)
Lemma split_literal_counterexample :
  split_pieces (name sample_literal_row) = [L "2"; L "2b"] /\
  1 < length (split_pieces (name sample_literal_row)) /\
  group_events [sample_literal_row] = [single_event sample_literal_row []] /\
  ~ emits_block [sample_literal_row] (split_block sample_literal_row).
Proof.
  split; [vm_compute; reflexivity|].
  split; [vm_compute; lia|].
  split; [vm_compute; reflexivity|].
  intros (before & after & H).
  apply (f_equal (@length _)) in H. rewrite !length_app in H.
  assert (length (group_events [sample_literal_row]) = 1) as H1
    by (vm_compute; reflexivity).
  assert (length (split_block sample_literal_row) = 2) as H2
    by (vm_compute; reflexivity).
  lia.
Qed.

(** C1, amended: for every raw name of a slot that is not the literal
    [b2b2b2b2b] (trimmed, in any casing) and whose splitting on the
    separator tokens yields more than one non-empty suffix-stripped
    piece, [group_events] emits exactly one record per piece, next to each
    other; all of them carry the time, end time and stage of the row, the
    mode [B2B] whatever the separator was, and as custom name the
    suffix-stripped form of the unsplit name. *)
Theorem split_names_emit_block (events : list RawRow) (ev : RawRow) :
  In ev events ->
  lower (strip (name ev)) <> L "b2b2b2b2b" ->
  1 < length (split_pieces (name ev)) ->
  emit_row ev = split_block ev /\
  emits_block events (split_block ev) /\
  map ev_name (split_block ev) = split_pieces (name ev) /\
  Forall (fun e =>
            ev_time e = parse_datetime (start ev) /\
            ev_end_time e = parse_datetime (end_ ev) /\
            ev_stage e = stage ev /\
            ev_performance_mode e = L "B2B" /\
            ev_custom_name e = Some (clean_name (name ev)))
         (split_block ev).
Proof.
  intros Hin Hlit Hlen.
  assert (emit_row ev = split_block ev) as Hemit.
  { apply emit_name_split; [|exact Hlen].
    unfold is_b2b_literal. apply str_eqb_neq. exact Hlit. }
  repeat split.
  - exact Hemit.
  - rewrite <- Hemit. destruct (group_events_block _ _ Hin) as (b & a & H).
    exists b, a; exact H.
  - unfold split_block. rewrite map_map. simpl. apply map_id.
  - unfold split_block. rewrite Forall_map. simpl.
    apply Forall_forall; intros; repeat split; reflexivity.
Qed.

Lemma split_names_emit_block_witness :
  emit_row sample_split_row = split_block sample_split_row /\
  map ev_name (split_block sample_split_row) = [L "Artist A"; L "Artist B"].
Proof.
  destruct (@split_names_emit_block [sample_split_row] sample_split_row)
    as (H1 & _ & H3 & _).
  - left; reflexivity.
  - vm_compute; discriminate.
  - vm_compute; lia.
  - split; [exact H1 | exact H3].
Defined.

(** ** C2: names that do not split *)

(** C2: for every raw name whose splitting yields at most one non-empty
    piece, [group_events] emits a single record; its name is the
    suffix-stripped combined name, it has no custom name, and its mode is
    the token of the first occurrence of [B2B], [B3B], [F2F] or [VS]
    between word boundaries in the original name, or the empty string if
    there is no such occurrence; [Solo Set VS] yields one record named
    [Solo Set VS] with mode [VS]. *)
Theorem unsplit_names_emit_single :
  (forall (events : list RawRow) (ev : RawRow),
     In ev events ->
     length (split_pieces (name ev)) <= 1 ->
     let mode := detect_mode (name ev) in
     emit_row ev = [single_event ev mode] /\
     emits_block events [single_event ev mode] /\
     (forall pre tok post,
        mode_occurrence (name ev) pre tok post ->
        (forall pre' tok' post',
           mode_occurrence (name ev) pre' tok' post' ->
           length pre <= length pre') ->
        mode = tok) /\
     ((forall pre tok post, ~ mode_occurrence (name ev) pre tok post) ->
      mode = [])) /\
  group_events [sample_solo_row]
  = [ {| ev_name := L "Solo Set VS";
         ev_time := L "2024-07-13T18:00";
         ev_end_time := L "2024-07-13T19:00";
         ev_stage := L "Main Stage";
         ev_performance_mode := L "VS";
         ev_custom_name := None |} ].
Proof.
  split; [|vm_compute; reflexivity].
  intros events ev Hin Hlen mode.
  assert (emit_row ev = [single_event ev mode]) as Hemit
    by (apply emit_name_single; exact Hlen).
  repeat split.
  - exact Hemit.
  - rewrite <- Hemit. destruct (group_events_block _ _ Hin) as (b & a & H).
    exists b, a; exact H.
  - intros pre tok post Hocc Hfirst. eapply detect_mode_first; eauto.
  - apply detect_mode_none.
Qed.

Lemma unsplit_names_emit_single_witness :
  emit_row sample_solo_row
  = [single_event sample_solo_row (detect_mode (name sample_solo_row))].
Proof.
  apply (proj1 unsplit_names_emit_single [sample_solo_row] sample_solo_row).
  - left; reflexivity.
  - vm_compute; lia.
Defined.

(** ** C3: the datetime normaliser *)

(** C3: [parse_datetime] maps every input that, once trimmed, consists of
    two whitespace-separated tokens of which the first has exactly three
    [/]-separated components to [YYYY-MM-DDTHH:MM], without looking at the
    values; it returns the empty string for empty and whitespace-only
    input, for input that does not split into exactly two tokens and for
    a date token that does not split into exactly three components. *)
Theorem parse_datetime_spec :
  (forall w0 yyyy mm dd w1 time w2,
     all_space w0 -> all_space w1 -> w1 <> [] -> all_space w2 ->
     no_space yyyy -> no_space mm -> no_space dd ->
     ~ In "/"%char yyyy -> ~ In "/"%char mm -> ~ In "/"%char dd ->
     no_space time -> time <> [] ->
     parse_datetime (w0 ++ (yyyy ++ L "/" ++ mm ++ L "/" ++ dd) ++ w1 ++ time ++ w2)
     = yyyy ++ L "-" ++ mm ++ L "-" ++ dd ++ L "T" ++ time) /\
  (forall s date_part time_part yyyy mm dd,
     split_ws (strip s) = [date_part; time_part] ->
     split_on "/"%char date_part = [yyyy; mm; dd] ->
     parse_datetime s = yyyy ++ L "-" ++ mm ++ L "-" ++ dd ++ L "T" ++ time_part) /\
  (forall s, strip s = [] -> parse_datetime s = []) /\
  (forall s, length (split_ws (strip s)) <> 2 -> parse_datetime s = []) /\
  (forall s date_part time_part,
     split_ws (strip s) = [date_part; time_part] ->
     length (split_on "/"%char date_part) <> 3 ->
     parse_datetime s = []).
Proof.
  assert (forall s date_part time_part yyyy mm dd,
     split_ws (strip s) = [date_part; time_part] ->
     split_on "/"%char date_part = [yyyy; mm; dd] ->
     parse_datetime s = yyyy ++ L "-" ++ mm ++ L "-" ++ dd ++ L "T" ++ time_part)
    as Htokens.
  { intros s d t y m dd Hs Hd. unfold parse_datetime.
    destruct s as [|c s]; [discriminate Hs|].
    destruct (strip (c :: s)) eqn:E; [discriminate Hs|].
    rewrite Hs, Hd. reflexivity. }
  repeat split.
  - intros w0 y m d w1 t w2 Hw0 Hw1 Hw1' Hw2 Hy Hm Hd Hy' Hm' Hd' Ht Ht'.
    set (date := y ++ L "/" ++ m ++ L "/" ++ d).
    assert (no_space date) as Hdate.
    { unfold date, no_space. rewrite !Forall_app.
      repeat split; auto; repeat constructor. }
    assert (date <> []) as Hdate'.
    { unfold date. destruct y; discriminate. }
    apply (Htokens _ date t).
    + replace (date ++ w1 ++ t ++ w2) with ((date ++ w1 ++ t) ++ w2)
        by (rewrite <- !app_assoc; reflexivity).
      rewrite strip_pad by assumption.
      assert (strip (date ++ w1 ++ t) = date ++ w1 ++ t) as ->.
      { destruct date as [|c date]; [congruence|].
        inversion Hdate as [|? ? Hc _]; subst.
        simpl app. rewrite strip_cons_nonspace by exact Hc. f_equal.
        destruct (exists_last Ht') as (t0 & x & ->).
        apply Forall_app in Ht. destruct Ht as [_ Hx].
        inversion Hx as [|? ? Hx' _]; subst.
        replace (date ++ w1 ++ t0 ++ [x]) with (date ++ (w1 ++ t0) ++ [x])
          by (rewrite <- !app_assoc; reflexivity).
        apply rstrip_app_nonspace. exact Hx'. }
      apply split_ws_two; assumption.
    + unfold date. simpl. apply split_on_three; assumption.
  - exact Htokens.
  - intros s Hs. unfold parse_datetime. rewrite Hs.
    destruct s; reflexivity.
  - intros s Hlen. unfold parse_datetime.
    destruct s as [|c s]; [reflexivity|].
    destruct (strip (c :: s)); [reflexivity|].
    destruct (split_ws _) as [|p1 [|p2 [|p3 l]]]; try reflexivity.
    simpl in Hlen; congruence.
  - intros s d t Hs Hlen. unfold parse_datetime.
    destruct s as [|c s]; [reflexivity|].
    destruct (strip (c :: s)); [reflexivity|].
    rewrite Hs.
    destruct (split_on "/"%char d) as [|p1 [|p2 [|p3 [|p4 l]]]]; try reflexivity.
    simpl in Hlen; congruence.
Qed.

Lemma parse_datetime_spec_witness :
  parse_datetime (L " " ++ (L "2024" ++ L "/" ++ L "13" ++ L "/" ++ L "40")
                  ++ L "  " ++ L "18:30" ++ L " ")
  = L "2024" ++ L "-" ++ L "13" ++ L "-" ++ L "40" ++ L "T" ++ L "18:30".
Proof.
  apply (proj1 parse_datetime_spec);
    try (repeat constructor; fail);
    try discriminate;
    try (vm_compute; intuition discriminate).
Defined.

(** ** C4: the order of the output *)

(** C4: in the sorted list that [main] serialises, a record stands before
    another whenever its time string is less than the other's, or the
    time strings are equal and its stage string is less; the records of
    one (time, stage) key keep the order in which [group_events] emitted
    them.  The sort neither adds nor drops a record. *)
Theorem output_sorted_stable (events : list RawRow) :
  Permutation (group_events events) (sorted_events events) /\
  (forall i j a b,
     nth_error (sorted_events events) i = Some a ->
     nth_error (sorted_events events) j = Some b ->
     str_ltb (ev_time a) (ev_time b) = true \/
     (ev_time a = ev_time b /\ str_ltb (ev_stage a) (ev_stage b) = true) ->
     i < j) /\
  (forall k,
     filter (has_key k) (sorted_events events)
     = filter (has_key k) (group_events events)).
Proof.
  unfold sorted_events. repeat split.
  - apply sort_events_perm.
  - intros i j a b Hi Hj Hlt.
    eapply sort_events_precedes; eauto.
    apply key_ltb_spec. exact Hlt.
  - intros k. apply sort_events_stable.
Qed.

(** ** C5: rows with missing fields *)

(** C5 asks that a data row lacking one of the four fields be dropped
    without any error.  A data row that has fewer fields than the header
    is not dropped: [DictReader] binds the missing columns to [None], the
    default of [row.get] is not used, and [None.strip()] raises.  Here the
    second data row stops after the name; without that row the file
    loads. *)
Theorem short_row_raises :
  load_csv sample_csv_short_row = ([], Raise AttributeError) /\
  main sample_csv_short_row = ([], Uncaught AttributeError) /\
  load_csv (removelast sample_csv_short_row)
  = ([], Ok [row "2024/07/13 18:00" "2024/07/13 19:00" "Solo Set" "Main Stage"]).
Proof. repeat split; vm_compute; reflexivity. Qed.

(** ** C6: names are not empty *)

(** C6: every record of the final output has a non-empty name. *)
Theorem output_names_nonempty (raw_lines : list str) (err : list str)
  (out : list Entry) :
  main raw_lines = (err, Output out) ->
  Forall (fun en => en_name en <> []) out.
Proof.
  unfold main. destruct (load_csv raw_lines) as [err0 r] eqn:Hload.
  destruct r as [events|e]; [|discriminate].
  destruct events as [|ev events]; [discriminate|].
  intros H; injection H as _ <-.
  apply load_csv_valid in Hload.
  unfold to_json. rewrite Forall_map. simpl.
  apply Forall_forall. intros e He.
  apply (@group_events_names (ev :: events) e Hload).
  eapply Permutation_in; [symmetry; apply sort_events_perm | exact He].
Qed.

Lemma output_names_nonempty_witness :
  Forall (fun en => en_name en <> []) sample_output.
Proof.
  apply (@output_names_nonempty sample_csv [] sample_output).
  vm_compute; reflexivity.
Defined.

(** ** C7: the literal b2b2b2b2b *)

(** C7: a raw name that, trimmed and lowercased, is [b2b2b2b2b] is not
    split: one record is emitted for it, named by the suffix-stripped
    original, with the empty mode and no custom name. *)
Theorem literal_name_not_split (events : list RawRow) (ev : RawRow) :
  In ev events ->
  lower (strip (name ev)) = L "b2b2b2b2b" ->
  emit_row ev = [single_event ev []] /\
  emits_block events [single_event ev []].
Proof.
  intros Hin Hlit.
  assert (emit_row ev = [single_event ev []]) as Hemit.
  { apply emit_name_literal. unfold is_b2b_literal.
    apply str_eqb_eq. exact Hlit. }
  split; [exact Hemit|].
  rewrite <- Hemit. destruct (group_events_block _ _ Hin) as (b & a & H).
  exists b, a; exact H.
Qed.

Lemma literal_name_not_split_witness :
  emit_row sample_literal_row_mixed = [single_event sample_literal_row_mixed []].
Proof.
  apply (@literal_name_not_split [sample_literal_row_mixed]).
  - left; reflexivity.
  - vm_compute; reflexivity.
Defined.

(** ** C8: no header *)

(** C8: when no processed line is a header line, [load_csv] writes its
    error on the standard error stream and returns the empty list without
    raising; [main] then reports that there are no events and exits. *)
Theorem header_not_found (raw_lines : list str) :
  (forall line, In line (map process_line raw_lines) ->
     ~ (startswith (L "Start,") (strip line) = true /\
        contains (L "End") line = true /\
        contains (L "Name") line = true /\
        contains (L "Location") line = true)) ->
  load_csv raw_lines = ([header_error], Ok []) /\
  main raw_lines = ([header_error; no_events_error], Exit1).
Proof.
  intros H.
  assert (load_csv raw_lines = ([header_error], Ok [])) as Hload.
  { unfold load_csv. rewrite from_header_none; [reflexivity|].
    intros line Hin. specialize (H line Hin). unfold is_header.
    destruct (startswith _ _), (contains (L "End") line),
      (contains (L "Name") line), (contains (L "Location") line);
      try reflexivity.
    exfalso; apply H; auto. }
  split; [exact Hload|]. unfold main. rewrite Hload. reflexivity.
Qed.

Lemma header_not_found_witness :
  load_csv sample_csv_no_header = ([header_error], Ok []) /\
  main sample_csv_no_header = ([header_error; no_events_error], Exit1).
Proof.
  apply header_not_found.
  intros line Hin. simpl in Hin.
  destruct Hin as [<-|[<-|[<-|[]]]]; vm_compute; intros [H _]; discriminate H.
Defined.

(** ** C9: suffix stripping *)

(** C9 does not hold as stated: [clean_name] removes one suffix, so a
    name that carries two is cleaned further by a second application. *)
Lemma clean_name_not_idempotent :
  clean_name (clean_name (L "DJ A/V A/V")) <> clean_name (L "DJ A/V A/V").
Proof. vm_compute. discriminate. Qed.

(** C9, amended: [clean_name] removes one trailing suffix.  Applying it
    twice gives the same as applying it once exactly when
    [SUFFIX_PATTERN] finds no match in the cleaned name; in particular it
    does not when the cleaned name itself ends with whitespace followed by
    [A/V] or [(live)] in any casing.  The suffix is matched in any casing,
    after any non-empty whitespace, and is removed together with that
    whitespace, so that [DJ Test A/V] and [DJ Test (Live)] both become
    [DJ Test]. *)
Theorem clean_name_once :
  (forall s,
     clean_name (clean_name s) = clean_name s <->
     re_search true SUFFIX_PATTERN None (clean_name s) = None) /\
  (forall s,
     ends_with_suffix (clean_name s) ->
     clean_name (clean_name s) <> clean_name s) /\
  (forall b w sfx,
     w <> [] -> all_space w ->
     lower sfx = L "a/v" \/ lower sfx = L "(live)" ->
     clean_name (b ++ w ++ sfx) = strip b) /\
  clean_name (L "DJ Test A/V") = L "DJ Test" /\
  clean_name (L "DJ Test (Live)") = L "DJ Test".
Proof.
  split; [|split; [|split; [|split; reflexivity]]].
  - intros s. rewrite clean_name_fixed_iff. split; [tauto|].
    intros H; split; [apply strip_idem | exact H].
  - intros s (b & w & sfx & Hb & Hw & Hsp & Hsfx) Hfix.
    rewrite Hb, clean_name_suffix in Hfix by auto.
    apply (f_equal (@length _)) in Hfix.
    pose proof (strip_length b). rewrite !length_app in Hfix.
    destruct w; [congruence | simpl in Hfix; lia].
  - intros b w sfx Hw Hsp Hsfx. apply clean_name_suffix; assumption.
Qed.

Lemma clean_name_once_witness :
  clean_name (L "DJ Test" ++ L "  " ++ L "(LiVe)") = strip (L "DJ Test").
Proof.
  apply (proj1 (proj2 (proj2 clean_name_once))).
  - discriminate.
  - repeat constructor.
  - right; reflexivity.
Defined.

(** ** C10: grouping is content-neutral *)

(** C10: the records that [group_events] produces are, up to their
    order, those obtained by applying the split/normalise/emit step to
    every row on its own. *)
Theorem grouping_content_neutral (events : list RawRow) :
  Permutation (group_events events) (ungrouped_events events).
Proof.
  rewrite group_events_pairs, ungrouped_events_pairs.
  apply Permutation_flat_map. apply group_pairs_grouped.
Qed.

(** * Further properties *)

(** ** The grouping *)

Lemma key_eqb_refl (k : SlotKey) : key_eqb k k = true.
Proof. apply key_eqb_eq; reflexivity. Qed.

Lemma key_eqb_sym (a b : SlotKey) : key_eqb a b = key_eqb b a.
Proof.
  destruct (key_eqb a b) eqn:E, (key_eqb b a) eqn:E'; try reflexivity.
  - apply key_eqb_eq in E; subst. rewrite key_eqb_refl in E'; discriminate.
  - apply key_eqb_eq in E'; subst. rewrite key_eqb_refl in E; discriminate.
Qed.

Lemma distinct_keys_in (ks : list SlotKey) (k : SlotKey) :
  In k (distinct_keys ks) <-> In k ks.
Proof.
  induction ks as [|k0 ks IH]; simpl; [tauto|].
  rewrite filter_In, IH. split.
  - intros [H|[H _]]; auto.
  - intros [H|H]; [auto|].
    destruct (key_eqb k k0) eqn:E.
    + apply key_eqb_eq in E; auto.
    + right; split; [exact H | reflexivity].
Qed.

Lemma distinct_keys_nodup (ks : list SlotKey) : NoDup (distinct_keys ks).
Proof.
  induction ks as [|k ks IH]; simpl; constructor.
  - rewrite filter_In. intros [_ H]. rewrite key_eqb_refl in H. discriminate.
  - apply NoDup_filter. exact IH.
Qed.

Lemma filter_all (A : Type) (f : A -> bool) (l : list A) :
  (forall x, In x l -> f x = true) -> filter f l = l.
Proof.
  induction l as [|x l IH]; intros H; simpl; [reflexivity|].
  rewrite (H x) by (left; reflexivity). f_equal.
  apply IH. intros y Hy; apply H; right; exact Hy.
Qed.

Lemma distinct_keys_snoc (ks : list SlotKey) (k : SlotKey) :
  distinct_keys (ks ++ [k]) =
  if existsb (key_eqb k) ks then distinct_keys ks else distinct_keys ks ++ [k].
Proof.
  induction ks as [|k0 ks IH]; simpl; [reflexivity|].
  rewrite IH.
  destruct (existsb (key_eqb k) ks); [rewrite orb_true_r; reflexivity|].
  rewrite orb_false_r, filter_app. cbn [filter].
  destruct (key_eqb k k0); cbn [negb]; [rewrite app_nil_r|]; reflexivity.
Qed.

Lemma grouped_snoc (events : list RawRow) (ev : RawRow) :
  grouped (events ++ [ev])
  = grouped_append (slot_key ev) (name ev) (grouped events).
Proof. unfold grouped. rewrite fold_left_app. reflexivity. Qed.

Lemma rows_of_slot_snoc (k : SlotKey) (events : list RawRow) (ev : RawRow) :
  rows_of_slot k (events ++ [ev]) =
  rows_of_slot k events ++ (if key_eqb (slot_key ev) k then [ev] else []).
Proof. unfold rows_of_slot. rewrite filter_app. reflexivity. Qed.

Lemma grouped_append_map (events : list RawRow) (ev : RawRow)
  (l : list SlotKey) :
  NoDup l ->
  grouped_append (slot_key ev) (name ev)
    (map (fun k => (k, map name (rows_of_slot k events))) l)
  = map (fun k => (k, map name (rows_of_slot k (events ++ [ev])))) l
    ++ (if existsb (key_eqb (slot_key ev)) l then []
        else [(slot_key ev, [name ev])]).
Proof.
  induction 1 as [|k l Hk Hl IH]; [reflexivity|].
  cbn [map grouped_append existsb].
  rewrite rows_of_slot_snoc, (key_eqb_sym (slot_key ev) k).
  destruct (key_eqb k (slot_key ev)) eqn:E; cbn [orb].
  - rewrite map_app, app_nil_r. cbn [map app]. f_equal.
    apply map_ext_in. intros k' Hk'. rewrite rows_of_slot_snoc.
    destruct (key_eqb (slot_key ev) k') eqn:E'; [|rewrite app_nil_r; reflexivity].
    apply key_eqb_eq in E, E'. subst. contradiction.
  - rewrite app_nil_r, IH. reflexivity.
Qed.

Lemma existsb_key_in (k : SlotKey) (l : list SlotKey) :
  existsb (key_eqb k) l = true <-> In k l.
Proof.
  rewrite existsb_exists. split.
  - intros (x & Hx & E). apply key_eqb_eq in E. subst; exact Hx.
  - intros H. exists k; split; [exact H | apply key_eqb_refl].
Qed.

Lemma existsb_distinct_keys (k : SlotKey) (ks : list SlotKey) :
  existsb (key_eqb k) (distinct_keys ks) = existsb (key_eqb k) ks.
Proof.
  destruct (existsb (key_eqb k) ks) eqn:E.
  - apply existsb_key_in, distinct_keys_in, existsb_key_in. exact E.
  - destruct (existsb (key_eqb k) (distinct_keys ks)) eqn:E'; [|reflexivity].
    apply (proj1 (existsb_key_in _ _)) in E'.
    apply (proj1 (distinct_keys_in _ _)) in E'.
    apply (proj2 (existsb_key_in _ _)) in E'. congruence.
Qed.

Lemma rows_of_slot_absent (k : SlotKey) (events : list RawRow) :
  existsb (key_eqb k) (map slot_key events) = false ->
  rows_of_slot k events = [].
Proof.
  induction events as [|ev events IH]; [reflexivity|].
  cbn [map existsb rows_of_slot filter].
  rewrite orb_false_iff. intros [E H]. rewrite key_eqb_sym, E. auto.
Qed.

Lemma grouped_by_slot (events : list RawRow) :
  grouped events =
  map (fun k => (k, map name (rows_of_slot k events)))
      (distinct_keys (map slot_key events)).
Proof.
  induction events as [|ev events IH] using rev_ind; [reflexivity|].
  rewrite grouped_snoc, IH, grouped_append_map by apply distinct_keys_nodup.
  rewrite map_app. simpl map. rewrite distinct_keys_snoc, existsb_distinct_keys.
  destruct (existsb (key_eqb (slot_key ev)) (map slot_key events)) eqn:E.
  - rewrite app_nil_r. reflexivity.
  - rewrite map_app. simpl. rewrite rows_of_slot_snoc, key_eqb_refl.
    rewrite rows_of_slot_absent by exact E. reflexivity.
Qed.

(** X1: the grouping maps every slot key, at the place of its first
    occurrence among the rows, to the names of all the rows with that
    key, in the order of the rows; no key comes twice and no group is
    empty. *)
Theorem grouped_slots (events : list RawRow) :
  grouped events =
  map (fun k => (k, map name (rows_of_slot k events)))
      (distinct_keys (map slot_key events)) /\
  NoDup (map fst (grouped events)) /\
  Forall (fun g => snd g <> []) (grouped events).
Proof.
  pose proof (grouped_by_slot events) as H. split; [exact H|]. split.
  - rewrite H, map_map. simpl. rewrite map_id. apply distinct_keys_nodup.
  - rewrite H, Forall_map. simpl. apply Forall_forall. intros k Hk.
    apply distinct_keys_in, in_map_iff in Hk. destruct Hk as (ev & <- & Hev).
    intros Hnil. apply map_eq_nil in Hnil.
    assert (In ev (rows_of_slot (slot_key ev) events)) as Hin.
    { apply filter_In. split; [exact Hev | apply key_eqb_refl]. }
    rewrite Hnil in Hin. contradiction.
Qed.

Lemma emit_rows_of_slot (k : SlotKey) (events : list RawRow) :
  flat_map (emit_name k) (map name (rows_of_slot k events))
  = flat_map emit_row (rows_of_slot k events).
Proof.
  unfold rows_of_slot.
  induction events as [|ev events IH]; [reflexivity|].
  cbn [filter]. destruct (key_eqb (slot_key ev) k) eqn:E; [|exact IH].
  cbn [map flat_map]. apply key_eqb_eq in E. unfold emit_row at 1.
  rewrite E. f_equal. exact IH.
Qed.

(** X2: [group_events] emits slot after slot, the slots in the order of
    their first row, and within a slot the records of its rows in the
    order of the rows. *)
Theorem group_events_order (events : list RawRow) :
  group_events events =
  flat_map (fun k => flat_map emit_row (rows_of_slot k events))
           (distinct_keys (map slot_key events)).
Proof.
  unfold group_events. rewrite grouped_by_slot.
  induction (distinct_keys (map slot_key events)) as [|k l IH]; simpl;
    [reflexivity|].
  f_equal; [apply emit_rows_of_slot | exact IH].
Qed.

(** ** Where the records come from *)

Lemma detect_mode_values (s : str) :
  detect_mode s = [] \/ In (detect_mode s) mode_tokens.
Proof.
  destruct (detect_mode s) as [|c m] eqn:E; [left; reflexivity|].
  right. rewrite <- E.
  destruct (@detect_mode_occurrence s) as (pre & post & (_ & Hin & _) & _).
  - rewrite E; discriminate.
  - exact Hin.
Qed.

Lemma group_events_perm (events : list RawRow) :
  Permutation (group_events events) (ungrouped_events events).
Proof.
  rewrite group_events_pairs, ungrouped_events_pairs.
  apply Permutation_flat_map. apply group_pairs_grouped.
Qed.

Lemma emit_row_nonempty (ev : RawRow) : 1 <= length (emit_row ev).
Proof.
  unfold emit_row, emit_name, slot_key.
  destruct (1 <? length (split_artists (name ev))) eqn:E; [|simpl; lia].
  apply Nat.ltb_lt in E. rewrite length_map. lia.
Qed.

Lemma ungrouped_events_length (events : list RawRow) :
  length events <= length (ungrouped_events events).
Proof.
  unfold ungrouped_events.
  induction events as [|ev events IH]; simpl; [lia|].
  rewrite length_app. pose proof (emit_row_nonempty ev). lia.
Qed.

(** X3: every record that [group_events] emits comes from one of the
    rows: it has the normalised start and end of that row and its stage;
    its mode is empty or one of [B2B], [B3B], [F2F], [VS]; and it either
    has no custom name, the cleaned name of the row as its name and the
    detected mode, or it has the cleaned name of the row as custom name,
    one of the pieces of that name as its name and the mode [B2B]. *)
Theorem record_origin (events : list RawRow) (e : OutputEvent) :
  In e (group_events events) ->
  exists ev,
    In ev events /\
    ev_time e = parse_datetime (start ev) /\
    ev_end_time e = parse_datetime (end_ ev) /\
    ev_stage e = stage ev /\
    In (ev_performance_mode e) ([] :: mode_tokens) /\
    match ev_custom_name e with
    | None =>
        ev_name e = clean_name (name ev) /\
        ev_performance_mode e = detect_mode (name ev)
    | Some custom =>
        custom = clean_name (name ev) /\
        In (ev_name e) (split_pieces (name ev)) /\
        ev_performance_mode e = L "B2B"
    end.
Proof.
  intros He. apply group_events_rows in He. destruct He as (ev & Hin & He).
  exists ev. split; [exact Hin|].
  unfold emit_row, emit_name, slot_key in He.
  destruct (1 <? length (split_artists (name ev))) eqn:E.
  - apply in_map_iff in He. destruct He as (piece & <- & Hp). simpl.
    repeat split; auto.
    unfold split_artists in *. destruct (is_b2b_literal (name ev)).
    + simpl in E. discriminate.
    + exact Hp.
  - destruct He as [<-|[]]. simpl. repeat split.
    destruct (detect_mode_values (name ev)) as [H|H]; [left; auto | right; exact H].
Qed.

Lemma record_origin_witness :
  exists ev,
    In ev [sample_split_row] /\
    ev_time (hd (single_event sample_split_row []) (split_block sample_split_row))
    = parse_datetime (start ev).
Proof.
  destruct (@record_origin [sample_split_row]
              (hd (single_event sample_split_row []) (split_block sample_split_row)))
    as (ev & Hin & Ht & _).
  - vm_compute. left; reflexivity.
  - exists ev; split; assumption.
Defined.

(** X4: when [main] serialises an array, the file had at least one
    valid row, the array is the sorted result of [group_events] on the
    rows of [load_csv], and it has at least one object per row: it is
    never empty, and nothing was written on the standard error stream
    unless [load_csv] wrote it. *)
Theorem main_output_shape (raw_lines : list str) (err : list str)
  (out : list Entry) :
  main raw_lines = (err, Output out) ->
  exists events,
    load_csv raw_lines = (err, Ok events) /\
    events <> [] /\
    out = to_json (sorted_events events) /\
    length events <= length out.
Proof.
  unfold main. destruct (load_csv raw_lines) as [err0 r] eqn:Hload.
  destruct r as [events|e]; [|discriminate].
  destruct events as [|ev events]; [discriminate|].
  intros H; injection H as <- <-.
  exists (ev :: events). repeat split; try discriminate.
  unfold to_json, sorted_events. rewrite length_map.
  rewrite <- (Permutation_length (sort_events_perm _)).
  rewrite (Permutation_length (group_events_perm _)).
  apply ungrouped_events_length.
Qed.

Lemma main_output_shape_witness :
  exists events,
    load_csv sample_csv = ([], Ok events) /\
    events <> [] /\
    sample_output = to_json (sorted_events events) /\
    length events <= length sample_output.
Proof.
  apply (@main_output_shape sample_csv [] sample_output).
  vm_compute; reflexivity.
Defined.

(** ** The header locator *)

Lemma from_header_app (pre rest : list str) :
  (forall line, In line pre -> is_header line = false) ->
  from_header (pre ++ rest) = from_header rest.
Proof.
  induction pre as [|l pre IH]; intros H; simpl; [reflexivity|].
  rewrite (H l) by (left; reflexivity).
  apply IH. intros x Hx; apply H; right; exact Hx.
Qed.

Lemma from_header_some (processed : list str) :
  (exists line, In line processed /\ is_header line = true) ->
  exists data, from_header processed = Some data.
Proof.
  induction processed as [|l rest IH]; intros (line & Hin & Hh); simpl.
  - contradiction.
  - destruct (is_header l) eqn:E; [eauto|].
    destruct Hin as [->|Hin]; [congruence|]. apply IH; eauto.
Qed.

(** X5: the lines before the first header line play no part: the file
    loads as if it began with its header line. *)
Theorem preamble_ignored (pre : list str) (header : str) (rest : list str) :
  (forall line, In line pre -> is_header (process_line line) = false) ->
  is_header (process_line header) = true ->
  load_csv (pre ++ header :: rest) = load_csv (header :: rest).
Proof.
  intros Hpre Hh. unfold load_csv.
  rewrite map_app, from_header_app; [reflexivity|].
  intros line Hin. apply in_map_iff in Hin.
  destruct Hin as (l & <- & Hl). apply Hpre; exact Hl.
Qed.

Lemma preamble_ignored_witness :
  load_csv ([L "// some note" ++ nl] ++ tl sample_csv) = load_csv (tl sample_csv).
Proof.
  apply (@preamble_ignored [L "// some note" ++ nl]).
  - intros line [<-|[]]. vm_compute; reflexivity.
  - vm_compute; reflexivity.
Defined.

(** X6: [load_csv] writes on the standard error stream exactly when no
    processed line is a header line, and then it writes the one header
    message; whatever the rows are like, it reports nothing else. *)
Theorem load_csv_stderr (raw_lines : list str) :
  (fst (load_csv raw_lines) = [] <->
   exists line, In line (map process_line raw_lines) /\ is_header line = true) /\
  (fst (load_csv raw_lines) = [] \/ fst (load_csv raw_lines) = [header_error]).
Proof.
  unfold load_csv.
  destruct (from_header (map process_line raw_lines)) as [data|] eqn:E.
  - assert (fst (match csv_reader data with
                 | RStop => ([], Ok [])
                 | RError => ([], Raise CsvError)
                 | RRow fieldnames rest =>
                     let (ds, e) := dict_rows fieldnames rest in
                     ([], extract_rows ds e)
                 end : list str * result (list RawRow)) = []) as H.
    { destruct (csv_reader data) as [| |f r]; try reflexivity.
      destruct (dict_rows f r); reflexivity. }
    rewrite H. split; [|left; reflexivity].
    split; [intros _|reflexivity].
    clear H. revert E. induction (map process_line raw_lines) as [|l ls IH];
      simpl; [discriminate|].
    destruct (is_header l) eqn:Hl.
    + intros _. exists l; auto.
    + intros E. destruct (IH E) as (x & Hx & Hh). exists x; auto.
  - simpl. split; [|right; reflexivity].
    split; [discriminate|].
    intros H. apply from_header_some in H. destruct H as (d & Hd).
    congruence.
Qed.

(** X7: a line that begins, after whitespace, with the comment marker
    loses the whitespace, one marker and the whitespace after it; every
    other line is kept as it is. *)
Theorem comment_marker_removed :
  (forall w w' s,
     all_space w -> all_space w' -> next_is_space s = false ->
     process_line (w ++ L "//" ++ w' ++ s) = s) /\
  (forall line,
     startswith (L "//") (lstrip line) = false -> process_line line = line).
Proof.
  split.
  - intros w w' s Hw Hw' Hs. unfold process_line.
    rewrite lstrip_app_space by exact Hw.
    change (L "//" ++ w' ++ s) with ("/"%char :: "/"%char :: w' ++ s).
    cbn [lstrip is_space]. change (is_space "/") with false. cbv iota.
    cbn [startswith L list_ascii_of_string]. rewrite ascii_eqb_refl.
    cbn [andb skipn]. rewrite lstrip_app_space by exact Hw'.
    destruct s as [|c s]; [reflexivity|]. simpl in Hs. simpl. rewrite Hs.
    reflexivity.
  - intros line H. unfold process_line. rewrite H. reflexivity.
Qed.

Lemma comment_marker_removed_witness :
  process_line (L "  " ++ L "//" ++ L " " ++ L "Start,End,Name,Location")
  = L "Start,End,Name,Location".
Proof.
  apply (proj1 comment_marker_removed).
  - repeat constructor.
  - repeat constructor.
  - reflexivity.
Defined.

(** ** Loading a plain table *)

Lemma plain_char_spec (c : ascii) :
  plain_char c = true ->
  is_nl c = false /\ ascii_eqb c quotechar = false /\ ascii_eqb c delimiter = false.
Proof.
  unfold plain_char. rewrite negb_true_iff, !orb_false_iff. tauto.
Qed.

Lemma parse_line_app_in_field (f : str) :
  forall (fs : list str) (cur rest : str),
  Forall (fun c => plain_char c = true) f ->
  (N.of_nat (length cur + length f) <= field_size_limit)%N ->
  parse_line {| state := IN_FIELD; fields := fs; field := cur |} (f ++ rest)
  = parse_line {| state := IN_FIELD; fields := fs; field := rev f ++ cur |} rest.
Proof.
  induction f as [|c f IH]; intros fs cur rest Hf Hlen; [reflexivity|].
  inversion Hf as [|? ? Hc Hf']; subst.
  destruct (plain_char_spec _ Hc) as (Hnl & Hq & Hd).
  cbn [app parse_line parse_process_char state]. rewrite Hnl, Hd.
  unfold parse_add_char. cbn [field fields state].
  replace (field_size_limit <=? N.of_nat (length cur))%N with false.
  2:{ symmetry. apply N.leb_gt. simpl in Hlen. lia. }
  cbn [bind]. rewrite IH; [|exact Hf'|simpl in *; lia].
  simpl. rewrite <- app_assoc. reflexivity.
Qed.

(** A plain field read from the start of a field, up to the delimiter or
    the line break that ends it. *)
Lemma parse_line_field (f : str) (fs : list str) (c : ascii) (rest : str) :
  plain_field f ->
  plain_char c = false ->
  parse_line {| state := START_FIELD; fields := fs; field := [] |} (f ++ c :: rest)
  = parse_line {| state := (match f with [] => START_FIELD | _ => IN_FIELD end);
                  fields := fs; field := rev f |} (c :: rest).
Proof.
  intros [Hf Hlen] Hc. destruct f as [|x f]; [reflexivity|].
  inversion Hf as [|? ? Hx Hf']; subst.
  destruct (plain_char_spec _ Hx) as (Hnl & Hq & Hd).
  remember (parse_line {| state := IN_FIELD; fields := fs; field := rev (x :: f) |}
              (c :: rest)) as R eqn:HR.
  cbn [app parse_line parse_process_char state]. rewrite Hnl, Hq, Hd.
  unfold parse_add_char. cbn [field fields state length].
  change (field_size_limit <=? N.of_nat 0)%N with false.
  cbn [bind]. unfold set_state. cbn [state fields field].
  rewrite parse_line_app_in_field; [|exact Hf'|simpl in *; lia].
  subst R. reflexivity.
Qed.

Lemma parse_line_record (fs : list str) :
  forall done : list str,
  fs <> [] -> Forall plain_field fs ->
  parse_line {| state := START_FIELD; fields := done; field := [] |} (csv_line fs)
  = Ok {| state := START_RECORD; fields := done ++ fs; field := [] |}.
Proof.
  unfold csv_line.
  induction fs as [|f fs IH]; intros done Hne Hfs; [congruence|].
  inversion Hfs as [|? ? Hf Hfs']; subst.
  destruct fs as [|g fs].
  - cbn [join_fields]. unfold nl.
    rewrite parse_line_field by (auto; reflexivity).
    destruct f as [|x f]; cbn -[rev]; unfold set_state, parse_save_field;
      cbn -[rev]; rewrite ?rev_involutive; reflexivity.
  - change (join_fields (f :: g :: fs)) with (f ++ delimiter :: join_fields (g :: fs)).
    rewrite <- app_assoc. cbn [app].
    rewrite parse_line_field by (auto; reflexivity).
    assert (parse_line
              {| state := match f with [] => START_FIELD | _ :: _ => IN_FIELD end;
                 fields := done; field := rev f |}
              (delimiter :: join_fields (g :: fs) ++ nl)
            = parse_line {| state := START_FIELD; fields := done ++ [f]; field := [] |}
                (join_fields (g :: fs) ++ nl)) as ->.
    { destruct f as [|x f]; cbn -[join_fields rev];
        unfold set_state, parse_save_field; cbn -[join_fields rev];
        rewrite ?rev_involutive; reflexivity. }
    rewrite IH by (auto; discriminate). rewrite <- app_assoc. reflexivity.
Qed.

Lemma parse_line_first (line : str) :
  next_is_nl line = false -> line <> [] ->
  parse_line parse_reset line
  = parse_line {| state := START_FIELD; fields := []; field := [] |} line.
Proof.
  destruct line as [|c line]; [congruence|]. simpl next_is_nl. intros Hc _.
  cbn [parse_line parse_process_char state parse_reset]. rewrite Hc.
  reflexivity.
Qed.

Lemma csv_line_first (f g : str) (fs : list str) :
  Forall (fun c => plain_char c = true) f ->
  next_is_nl (csv_line (f :: g :: fs)) = false /\ csv_line (f :: g :: fs) <> [].
Proof.
  intros Hf. unfold csv_line.
  change (join_fields (f :: g :: fs)) with (f ++ delimiter :: join_fields (g :: fs)).
  destruct f as [|c f]; [split; [reflexivity | discriminate]|].
  inversion Hf as [|? ? Hc _]; subst.
  split; [|discriminate]. simpl. apply plain_char_spec in Hc. tauto.
Qed.

Lemma reader_record (r : list str) (lines : list str) :
  2 <= length r -> Forall plain_field r ->
  reader parse_reset (csv_line r :: lines) = RRow r (reader parse_reset lines).
Proof.
  intros Hlen Hr. destruct r as [|f [|g fs]]; simpl in Hlen; try lia.
  inversion Hr as [|? ? Hf _]; subst.
  destruct (@csv_line_first f g fs (proj1 Hf)) as (H1 & H2).
  cbn [reader]. rewrite parse_line_first by assumption.
  rewrite parse_line_record by (auto; discriminate).
  reflexivity.
Qed.

Lemma reader_table (table : list (list str)) :
  Forall (fun r => 2 <= length r /\ Forall plain_field r) table ->
  csv_reader (map csv_line table) = fold_right RRow RStop table.
Proof.
  unfold csv_reader.
  induction 1 as [|r table [Hlen Hr] _ IH]; [reflexivity|].
  cbn [map fold_right]. rewrite reader_record by assumption.
  rewrite IH. reflexivity.
Qed.

Lemma dict_rows_table (fieldnames : list str) (table : list (list str)) :
  Forall (fun r => r <> []) table ->
  dict_rows fieldnames (fold_right RRow RStop table)
  = (map (make_row [] fieldnames) table, false).
Proof.
  induction 1 as [|r table Hr _ IH]; [reflexivity|].
  cbn [fold_right dict_rows map]. destruct r as [|v r]; [congruence|].
  rewrite IH. reflexivity.
Qed.

Lemma cell_absent (fieldnames r : list str) (k : str) :
  ~ In k fieldnames -> cell fieldnames r k = [].
Proof.
  revert r; induction fieldnames as [|f fieldnames IH]; intros r Hk;
    [reflexivity|].
  destruct r as [|v r]; [reflexivity|]. cbn [cell].
  destruct (str_eqb f k) eqn:E.
  - apply str_eqb_eq in E. exfalso; apply Hk; left; exact E.
  - apply IH. intros H; apply Hk; right; exact H.
Qed.

Lemma dict_get_make_row (fieldnames : list str) :
  forall (d : dict) (r : list str) (k : str),
  NoDup fieldnames -> length r = length fieldnames ->
  dict_get (make_row d fieldnames r) k =
  if existsb (fun f => str_eqb f k) fieldnames
  then Some (VStr (cell fieldnames r k))
  else dict_get d k.
Proof.
  induction fieldnames as [|f fieldnames IH]; intros d r k Hnd Hlen.
  - destruct r; reflexivity.
  - destruct r as [|v r]; [discriminate|]. injection Hlen as Hlen.
    inversion Hnd as [|? ? Hf Hnd']; subst.
    cbn [make_row existsb cell]. rewrite IH by assumption.
    destruct (existsb (fun f0 => str_eqb f0 k) fieldnames) eqn:E.
    + rewrite orb_true_r.
      destruct (str_eqb f k) eqn:Ef; [|reflexivity].
      apply str_eqb_eq in Ef. subst k. exfalso; apply Hf.
      apply existsb_exists in E. destruct E as (x & Hx & Ex).
      apply str_eqb_eq in Ex. subst; exact Hx.
    + rewrite orb_false_r. cbn [dict_get].
      destruct (str_eqb f k); reflexivity.
Qed.

Lemma existsb_str_in (k : str) (l : list str) :
  In k l -> existsb (fun f => str_eqb f k) l = true.
Proof.
  intros H. apply existsb_exists. exists k; split; [exact H | apply str_eqb_refl].
Qed.

Lemma extract_row_table (fieldnames r : list str) :
  NoDup fieldnames -> length r = length fieldnames ->
  In (L "Start") fieldnames -> In (L "End") fieldnames ->
  In (L "Name") fieldnames -> In (L "Location") fieldnames ->
  extract_row (make_row [] fieldnames r)
  = Ok (match raw_row_of fieldnames r with [] => None | ev :: _ => Some ev end).
Proof.
  intros Hnd Hlen Hs He Hn Hg.
  rewrite (@extract_row_present _ (cell fieldnames r (L "Start"))
             (cell fieldnames r (L "End")) (cell fieldnames r (L "Name"))
             (cell fieldnames r (L "Location")));
    try (rewrite dict_get_make_row, existsb_str_in by assumption; reflexivity).
  unfold raw_row_of.
  destruct (is_empty _ || is_empty _ || is_empty _ || is_empty _); reflexivity.
Qed.

Lemma extract_rows_table (fieldnames : list str) (table : list (list str)) :
  NoDup fieldnames ->
  In (L "Start") fieldnames -> In (L "End") fieldnames ->
  In (L "Name") fieldnames -> In (L "Location") fieldnames ->
  Forall (fun r => length r = length fieldnames) table ->
  extract_rows (map (make_row [] fieldnames) table) false
  = Ok (flat_map (raw_row_of fieldnames) table).
Proof.
  intros Hnd Hs He Hn Hg.
  induction 1 as [|r table Hr _ IH]; [reflexivity|].
  cbn [map extract_rows flat_map].
  rewrite extract_row_table by assumption. cbn [bind]. rewrite IH. cbn [bind].
  unfold raw_row_of.
  destruct (is_empty _ || is_empty _ || is_empty _ || is_empty _); reflexivity.
Qed.

Lemma startswith_app (p s : str) : startswith p (p ++ s) = true.
Proof.
  induction p as [|c p IH]; [reflexivity|]. simpl.
  rewrite ascii_eqb_refl. exact IH.
Qed.

Lemma contains_app (p a b : str) : contains p (a ++ p ++ b) = true.
Proof.
  induction a as [|c a IH].
  - simpl app. destruct (p ++ b) eqn:E; cbn [contains]; rewrite <- E;
      rewrite startswith_app; reflexivity.
  - cbn [app contains]. rewrite IH. apply orb_true_r.
Qed.

Lemma join_fields_in (f : str) (fs : list str) :
  In f fs -> exists a b, join_fields fs = a ++ f ++ b.
Proof.
  induction fs as [|g fs IH]; intros Hin; [contradiction|].
  destruct Hin as [->|Hin].
  - exists []. destruct fs as [|h fs].
    + exists []. simpl. rewrite app_nil_r. reflexivity.
    + exists (delimiter :: join_fields (h :: fs)). reflexivity.
  - destruct (IH Hin) as (a & b & Hab).
    destruct fs as [|h fs]; [contradiction|].
    exists (g ++ delimiter :: a), b.
    change (join_fields (g :: h :: fs)) with (g ++ delimiter :: join_fields (h :: fs)).
    rewrite Hab, <- app_assoc. reflexivity.
Qed.

Lemma contains_field (f : str) (fs : list str) :
  In f fs -> contains f (csv_line fs) = true.
Proof.
  intros Hin. destruct (join_fields_in _ _ Hin) as (a & b & Hab).
  unfold csv_line. rewrite Hab, <- !app_assoc. apply contains_app.
Qed.

Lemma header_line_is_header (others : list str) :
  In (L "End") others -> In (L "Name") others -> In (L "Location") others ->
  process_line (csv_line (L "Start" :: others)) = csv_line (L "Start" :: others)
  /\ is_header (csv_line (L "Start" :: others)) = true.
Proof.
  intros He Hn Hg.
  destruct others as [|g fs]; [contradiction|].
  split; [reflexivity|].
  unfold is_header.
  rewrite !contains_field by (right; assumption).
  rewrite !andb_true_r. unfold csv_line.
  change (join_fields (L "Start" :: g :: fs))
    with (L "Start," ++ join_fields (g :: fs)).
  rewrite <- app_assoc.
  change (L "Start," ++ join_fields (g :: fs) ++ nl)
    with ("S"%char :: "t"%char :: "a"%char :: "r"%char :: "t"%char :: ","%char
            :: (join_fields (g :: fs) ++ nl)).
  rewrite strip_cons_nonspace by reflexivity.
  rewrite !rstrip_cons. reflexivity.
Qed.

(** X8: a file that consists of a header line with the column [Start]
    first and the columns [End], [Name] and [Location] anywhere among the
    others, and of records with one plain field per column, loads without
    error and without any message: the result has, in the order of the
    records, one row for every record whose four named fields are not
    empty once trimmed, with the trimmed values looked up by column name;
    the other columns and the order of the columns play no part. *)
Theorem load_csv_table (others : list str) (table : list (list str)) :
  Forall plain_field (L "Start" :: others) ->
  NoDup (L "Start" :: others) ->
  In (L "End") others -> In (L "Name") others -> In (L "Location") others ->
  Forall (fun r =>
            length r = length (L "Start" :: others) /\
            Forall plain_field r /\
            startswith (L "//") (lstrip (csv_line r)) = false)
         table ->
  load_csv (csv_line (L "Start" :: others) :: map csv_line table)
  = ([], Ok (flat_map (raw_row_of (L "Start" :: others)) table)).
Proof.
  intros Hplain Hnd He Hn Hg Htable.
  set (fieldnames := L "Start" :: others) in *.
  destruct (header_line_is_header others He Hn Hg) as (Hp & Hh).
  fold fieldnames in Hp, Hh.
  assert (2 <= length fieldnames) as Hlen.
  { unfold fieldnames. destruct others; [contradiction | simpl; lia]. }
  unfold load_csv. cbn [map]. rewrite Hp.
  assert (map process_line (map csv_line table) = map csv_line table) as ->.
  { rewrite map_map. apply map_ext_in. intros r Hr.
    rewrite Forall_forall in Htable. destruct (Htable r Hr) as (_ & _ & Hc).
    unfold process_line. rewrite Hc. reflexivity. }
  cbn [from_header]. rewrite Hh.
  change (csv_line fieldnames :: map csv_line table)
    with (map csv_line (fieldnames :: table)).
  rewrite reader_table.
  2:{ constructor; [split; assumption|].
      eapply Forall_impl; [|exact Htable]. cbv beta.
      intros r (Hr & Hpr & _). split; [lia | exact Hpr]. }
  cbn [fold_right]. rewrite dict_rows_table.
  2:{ eapply Forall_impl; [|exact Htable]. cbv beta.
      intros r (Hr & _) ->. simpl in Hr. lia. }
  rewrite extract_rows_table; auto.
  - left; reflexivity.
  - right; exact He.
  - right; exact Hn.
  - right; exact Hg.
  - eapply Forall_impl; [|exact Htable]. cbv beta. intros r (Hr & _). exact Hr.
Qed.

Lemma load_csv_table_witness :
  load_csv (csv_line sample_fieldnames :: map csv_line sample_table)
  = ([], Ok [ row "2024/07/13 18:00" "2024/07/13 19:00" "Solo Set" "Main Stage";
              row "2024/07/13 20:00" "2024/07/13 21:00" "Late Set" "Tent" ]).
Proof.
  apply (@load_csv_table (tl sample_fieldnames) sample_table).
  - repeat first [ apply Forall_nil | apply Forall_cons | split
                 | reflexivity | (vm_compute; discriminate) ].
  - repeat (constructor; [simpl; intuition discriminate|]). constructor.
  - simpl; auto 10.
  - simpl; auto 10.
  - simpl; auto 10.
  - repeat first [ apply Forall_nil | apply Forall_cons | split
                 | reflexivity | (vm_compute; discriminate) ].
Defined.

(** *** A header with leading whitespace *)

Lemma get_strip_make_row (fieldnames r : list str) (k : str) :
  NoDup fieldnames -> length r = length fieldnames ->
  get_strip (make_row [] fieldnames r) k = Ok (strip (cell fieldnames r k)).
Proof.
  intros Hnd Hlen. unfold get_strip. rewrite dict_get_make_row by assumption.
  destruct (existsb (fun f => str_eqb f k) fieldnames) eqn:E; [reflexivity|].
  rewrite cell_absent; [reflexivity|].
  intros Hin. rewrite existsb_str_in in E by exact Hin. discriminate.
Qed.

Lemma extract_rows_any (fieldnames : list str) (table : list (list str)) :
  NoDup fieldnames ->
  Forall (fun r => length r = length fieldnames) table ->
  extract_rows (map (make_row [] fieldnames) table) false
  = Ok (flat_map (raw_row_of fieldnames) table).
Proof.
  intros Hnd. induction 1 as [|r table Hr _ IH]; [reflexivity|].
  cbn [map extract_rows flat_map]. unfold extract_row at 1.
  rewrite !get_strip_make_row by assumption. cbn [bind].
  rewrite IH. unfold raw_row_of.
  destruct (is_empty _ || is_empty _ || is_empty _ || is_empty _); reflexivity.
Qed.

Lemma load_csv_plain (fieldnames : list str) (table : list (list str)) :
  process_line (csv_line fieldnames) = csv_line fieldnames ->
  is_header (csv_line fieldnames) = true ->
  2 <= length fieldnames ->
  Forall plain_field fieldnames -> NoDup fieldnames ->
  Forall (fun r =>
            length r = length fieldnames /\
            Forall plain_field r /\
            startswith (L "//") (lstrip (csv_line r)) = false)
         table ->
  load_csv (csv_line fieldnames :: map csv_line table)
  = ([], Ok (flat_map (raw_row_of fieldnames) table)).
Proof.
  intros Hp Hh Hlen Hplain Hnd Htable.
  unfold load_csv. cbn [map]. rewrite Hp.
  assert (map process_line (map csv_line table) = map csv_line table) as ->.
  { rewrite map_map. apply map_ext_in. intros r Hr.
    rewrite Forall_forall in Htable. destruct (Htable r Hr) as (_ & _ & Hc).
    unfold process_line. rewrite Hc. reflexivity. }
  cbn [from_header]. rewrite Hh.
  change (csv_line fieldnames :: map csv_line table)
    with (map csv_line (fieldnames :: table)).
  rewrite reader_table.
  2:{ constructor; [split; assumption|].
      eapply Forall_impl; [|exact Htable]. cbv beta.
      intros r (Hr & Hpr & _). split; [lia | exact Hpr]. }
  cbn [fold_right]. rewrite dict_rows_table.
  2:{ eapply Forall_impl; [|exact Htable]. cbv beta.
      intros r (Hr & _) ->. simpl in Hr. lia. }
  rewrite extract_rows_any; auto.
  eapply Forall_impl; [|exact Htable]. cbv beta. intros r (Hr & _). exact Hr.
Qed.

Lemma padded_header_is_header (w : str) (others : list str) :
  all_space w ->
  In (L "End") others -> In (L "Name") others -> In (L "Location") others ->
  process_line (csv_line ((w ++ L "Start") :: others))
  = csv_line ((w ++ L "Start") :: others)
  /\ is_header (csv_line ((w ++ L "Start") :: others)) = true.
Proof.
  intros Hw He Hn Hg.
  destruct others as [|g fs]; [contradiction|].
  assert (csv_line ((w ++ L "Start") :: g :: fs)
          = w ++ csv_line (L "Start" :: g :: fs)) as Hline.
  { unfold csv_line.
    change (join_fields ((w ++ L "Start") :: g :: fs))
      with ((w ++ L "Start") ++ delimiter :: join_fields (g :: fs)).
    change (join_fields (L "Start" :: g :: fs))
      with (L "Start" ++ delimiter :: join_fields (g :: fs)).
    rewrite <- !app_assoc. reflexivity. }
  destruct (header_line_is_header (g :: fs) He Hn Hg) as (_ & Hh).
  split.
  - unfold process_line. rewrite Hline, lstrip_app_space by exact Hw.
    reflexivity.
  - unfold is_header in *.
    rewrite !contains_field in Hh by (right; assumption).
    rewrite !contains_field by (right; assumption).
    rewrite !andb_true_r in *. rewrite Hline.
    rewrite <- (app_nil_r (csv_line (L "Start" :: g :: fs))) at 1.
    rewrite strip_pad by (auto; constructor). exact Hh.
Qed.

(** X9: take a file whose header line has whitespace (without line
    break) before [Start] in its first column, has pairwise distinct
    columns of which [End], [Name] and [Location] are among the others
    and none of the others is named [Start], and whose records have one
    plain field per column and are no comment lines.  The header line is
    recognised, since the test trims the line; but the reader keeps the
    whitespace in the name of the first column, the column is not found
    under the name [Start], every record counts as having an empty start,
    and no row is kept: [load_csv] returns the empty list without any
    message, and [main] reports that there are no valid events and
    exits. *)
Theorem padded_header_keeps_no_row (w : str) (others : list str)
  (table : list (list str)) :
  w <> [] -> all_space w ->
  Forall plain_field ((w ++ L "Start") :: others) ->
  NoDup ((w ++ L "Start") :: others) ->
  ~ In (L "Start") others ->
  In (L "End") others -> In (L "Name") others -> In (L "Location") others ->
  Forall (fun r =>
            length r = length ((w ++ L "Start") :: others) /\
            Forall plain_field r /\
            startswith (L "//") (lstrip (csv_line r)) = false)
         table ->
  load_csv (csv_line ((w ++ L "Start") :: others) :: map csv_line table)
  = ([], Ok []) /\
  main (csv_line ((w ++ L "Start") :: others) :: map csv_line table)
  = ([no_events_error], Exit1).
Proof.
  intros Hw Hsp Hplain Hnd Hstart He Hn Hg Htable.
  destruct (padded_header_is_header others Hsp He Hn Hg) as (Hp & Hh).
  assert (load_csv (csv_line ((w ++ L "Start") :: others) :: map csv_line table)
          = ([], Ok [])) as Hload.
  { rewrite load_csv_plain; auto.
    - f_equal. f_equal.
      induction table as [|r table IH]; [reflexivity|].
      cbn [flat_map]. inversion Htable; subst. rewrite IH by assumption.
      unfold raw_row_of. rewrite cell_absent; [reflexivity|].
      intros [H|H]; [|contradiction].
      apply (f_equal (@length _)) in H. rewrite length_app in H.
      destruct w; [congruence | simpl in H; lia].
    - destruct others; [contradiction | simpl; lia]. }
  split; [exact Hload|]. unfold main. rewrite Hload. reflexivity.
Qed.

Lemma padded_header_keeps_no_row_witness :
  load_csv (csv_line ((L " " ++ L "Start") :: tl sample_fieldnames)
              :: map csv_line sample_table)
  = ([], Ok []).
Proof.
  apply (@padded_header_keeps_no_row (L " ") (tl sample_fieldnames) sample_table).
  - discriminate.
  - repeat constructor.
  - repeat first [ apply Forall_nil | apply Forall_cons | split
                 | reflexivity | (vm_compute; discriminate) ].
  - repeat (constructor; [simpl; intuition discriminate|]). constructor.
  - simpl; intuition discriminate.
  - simpl; auto 10.
  - simpl; auto 10.
  - simpl; auto 10.
  - repeat first [ apply Forall_nil | apply Forall_cons | split
                 | reflexivity | (vm_compute; discriminate) ].
Defined.

(** ** What the split pattern cuts *)

Lemma word_ok_head (w s : str) (x : ascii) (w' : str) :
  w = x :: w' -> word_ok true w s = true ->
  exists c s', s = c :: s' /\ py_lower c = py_lower x /\ word_ok true w' s' = true.
Proof.
  intros -> H. destruct s as [|c s]; [discriminate|].
  cbn [word_ok atom_ok] in H. apply andb_true_iff in H. destruct H as [H1 H2].
  apply ascii_eqb_eq in H1. eauto.
Qed.

Lemma split_match_letter (prev : option ascii) (s : str) (cur : cursor) :
  re_match true split_regex prev s = Some cur ->
  exists c, In c s /\ separator_letter c = true.
Proof.
  unfold re_match, split_regex. cbn [run].
  intros H. apply many_sound in H. destruct H as (m1 & s1 & -> & H).
  cbn [alt_of] in H.
  assert (forall c, In c s1 -> In c (m1 ++ s1)) as Hin
    by (intros; apply in_or_app; right; assumption).
  assert (forall w x w' q,
            w = x :: w' -> separator_letter x = true ->
            run true (word w) q s1
              (fun p s' => many true ASpace p s' (fun p0 s0 => Some (p0, s0)))
            = Some cur ->
            exists c, In c (m1 ++ s1) /\ separator_letter c = true) as Hword.
  { intros w x w' q Hw Hx. rewrite run_word.
    destruct (word_ok true w s1) eqn:Ew; [|discriminate]. intros _.
    destruct (word_ok_head _ Hw Ew) as (c & s' & -> & Hc & _).
    exists c. split; [apply Hin; left; reflexivity|].
    unfold separator_letter in *. rewrite Hc.
    replace (py_lower (py_lower x)) with (py_lower x) in Hx; [exact Hx|].
    clear. destruct x as [[] [] [] [] [] [] [] []]; reflexivity. }
  repeat (apply alt_sound in H; destruct H as [H|H]);
    try (eapply Hword in H; [exact H | reflexivity | reflexivity]).
  (* the separator [ & ]: its second character is the ampersand *)
  rewrite run_word in H.
  destruct (word_ok true (L " & ") s1) eqn:Ew; [|discriminate].
  destruct (word_ok_head _ eq_refl Ew) as (c1 & s' & -> & _ & Ew').
  destruct (word_ok_head _ eq_refl Ew') as (c2 & s'' & -> & Hc2 & _).
  exists c2. split; [apply Hin; right; left; reflexivity|].
  unfold separator_letter. rewrite Hc2. reflexivity.
Qed.

Lemma split_search_none (s : str) :
  Forall (fun c => separator_letter c = false) s ->
  forall prev, re_search true split_regex prev s = None.
Proof.
  intros Hs prev. apply re_search_nowhere. intros a b Hab.
  destruct (re_match true split_regex (after prev a) b) as [cur|] eqn:E;
    [|reflexivity].
  apply split_match_letter in E. destruct E as (c & Hc & Hsep).
  rewrite Forall_forall in Hs. rewrite (Hs c) in Hsep; [discriminate|].
  rewrite Hab. apply in_or_app; right; exact Hc.
Qed.

Lemma mode_occurrence_letter (s pre tok post : str) :
  mode_occurrence s pre tok post ->
  exists c, In c s /\ separator_letter c = true.
Proof.
  intros (-> & Hin & _).
  assert (exists c tok', tok = c :: tok' /\ separator_letter c = true)
    as (c & tok' & -> & Hc).
  { unfold mode_tokens in Hin. simpl in Hin.
    destruct Hin as [<-|[<-|[<-|[<-|[]]]]]; eexists _, _; split; reflexivity. }
  exists c. split; [|exact Hc].
  apply in_or_app; right; left; reflexivity.
Qed.

(** X10: a name in which none of the letters [b], [f], [v], [x] (in
    either case) and no [&] occurs is never split and carries no mode:
    its row yields exactly one record, named by the cleaned name, with the
    empty mode and no custom name. *)
Theorem plain_name_single_record (ev : RawRow) :
  Forall (fun c => separator_letter c = false) (name ev) ->
  re_split true split_regex (name ev) = [name ev] /\
  detect_mode (name ev) = [] /\
  emit_row ev = [single_event ev []].
Proof.
  intros Hname.
  assert (re_split true split_regex (name ev) = [name ev]) as Hsplit.
  { unfold re_split. destruct (length (name ev)); cbn [re_split_from];
      rewrite split_search_none by exact Hname; reflexivity. }
  assert (detect_mode (name ev) = []) as Hmode.
  { apply detect_mode_none. intros pre tok post Hocc.
    apply mode_occurrence_letter in Hocc. destruct Hocc as (c & Hc & Hsep).
    rewrite Forall_forall in Hname. rewrite (Hname c Hc) in Hsep. discriminate. }
  repeat split; [exact Hsplit | exact Hmode |].
  rewrite <- Hmode. apply emit_name_single.
  unfold split_pieces. rewrite Hsplit. cbn [filter].
  destruct (negb (is_empty (clean_name (name ev)))); simpl; lia.
Qed.

Lemma plain_name_single_record_witness :
  emit_row (row "2024/07/13 18:00" "2024/07/13 19:00" "Solo Set" "Tent")
  = [single_event (row "2024/07/13 18:00" "2024/07/13 19:00" "Solo Set" "Tent") []].
Proof.
  apply (@plain_name_single_record
           (row "2024/07/13 18:00" "2024/07/13 19:00" "Solo Set" "Tent")).
  repeat constructor.
Defined.

(** *** The letter x *)

Lemma many_final (ic : bool) (a : atom) (s : str) :
  forall prev, many ic a prev s (fun p s' => Some (p, s')) <> None.
Proof.
  induction s as [|c s IH]; intros prev; simpl; [discriminate|].
  destruct (atom_ok ic a c); [|discriminate].
  destruct (many ic a (Some c) s _) eqn:E; [discriminate|].
  exfalso; eapply IH; eauto.
Qed.

Lemma is_x_not_space (c : ascii) : is_x c = true -> is_space c = false.
Proof.
  destruct c as [[] [] [] [] [] [] [] []]; vm_compute; congruence.
Qed.

Lemma alt_found_left (ic : bool) (r1 r2 : regex) (prev : option ascii)
  (s : str) (k : cont) :
  run ic r1 prev s k <> None -> run ic (Alt r1 r2) prev s k <> None.
Proof. cbn [run]. destruct (run ic r1 prev s k); congruence. Qed.

Lemma alt_found_right (ic : bool) (r1 r2 : regex) (prev : option ascii)
  (s : str) (k : cont) :
  run ic r2 prev s k <> None -> run ic (Alt r1 r2) prev s k <> None.
Proof. cbn [run]. destruct (run ic r1 prev s k); congruence. Qed.

Lemma split_match_x (prev : option ascii) (c : ascii) (b : str) :
  is_x c = true -> re_match true split_regex prev (c :: b) <> None.
Proof.
  intros Hx. pose proof (is_x_not_space _ Hx) as Hsp.
  unfold re_match, split_regex. cbn [run many atom_ok]. rewrite Hsp.
  cbn [alt_of].
  do 4 apply alt_found_right. apply alt_found_left.
  rewrite run_word. cbn [word_ok atom_ok L list_ascii_of_string].
  change (py_lower "X") with "x"%char. unfold is_x in Hx. rewrite Hx.
  cbn [andb]. apply many_final.
Qed.

Lemma split_search_no_x (s : str) :
  forall prev, re_search true split_regex prev s = None ->
  Forall (fun c => is_x c = false) s.
Proof.
  intros prev H. apply Forall_forall. intros c Hc.
  destruct (is_x c) eqn:E; [|reflexivity]. exfalso.
  apply in_split in Hc. destruct Hc as (a & b & ->).
  eapply split_match_x; [exact E|].
  eapply re_search_none; eauto.
Qed.

Lemma split_search_pre_no_x (s pre text : str) (prev p' : option ascii)
  (rest : str) :
  re_search true split_regex prev s = Some (pre, text, (p', rest)) ->
  Forall (fun c => is_x c = false) pre.
Proof.
  intros H. apply re_search_sound in H. destruct H as (_ & _ & Hbefore).
  apply Forall_forall. intros c Hc.
  destruct (is_x c) eqn:E; [|reflexivity]. exfalso.
  apply in_split in Hc. destruct Hc as (a & b & ->).
  eapply split_match_x; [exact E|].
  apply (Hbefore a (c :: b)); [reflexivity | discriminate].
Qed.

Lemma re_split_from_no_x (n : nat) :
  forall prev s, length s <= n ->
  Forall (Forall (fun c => is_x c = false)) (re_split_from true n split_regex prev s).
Proof.
  induction n as [|n IH]; intros prev s Hlen; cbn [re_split_from];
    destruct (re_search true split_regex prev s)
      as [[[pre text] [p' rest]]|] eqn:E.
  - destruct s; [|simpl in Hlen; lia]. repeat constructor.
  - constructor; [|constructor]. eapply split_search_no_x; eauto.
  - constructor; [eapply split_search_pre_no_x; eauto|].
    apply IH. pose proof (re_search_shorter split_nonempty _ _ E). lia.
  - constructor; [|constructor]. eapply split_search_no_x; eauto.
Qed.

Lemma re_sub_from_incl (ic : bool) (r : regex) (n : nat) :
  forall prev s, incl (re_sub_from ic n r prev s) s.
Proof.
  induction n as [|n IH]; intros prev s; cbn [re_sub_from];
    destruct (re_search ic r prev s) as [[[pre text] [p' rest]]|] eqn:E;
    try apply incl_refl.
  apply re_search_sound in E. destruct E as (-> & _ & _).
  apply incl_app; [apply incl_appl, incl_refl|].
  apply incl_appr, incl_appr. apply IH.
Qed.

Lemma lstrip_incl (s : str) : incl (lstrip s) s.
Proof.
  induction s as [|c s IH]; simpl; [apply incl_refl|].
  destruct (is_space c); [apply incl_tl; exact IH | apply incl_refl].
Qed.

Lemma strip_incl (s : str) : incl (strip s) s.
Proof.
  unfold strip, rstrip. intros c Hc.
  apply lstrip_incl, in_rev, lstrip_incl, in_rev in Hc. exact Hc.
Qed.

Lemma clean_name_incl (s : str) : incl (clean_name s) s.
Proof.
  unfold clean_name, re_sub. intros c Hc.
  apply strip_incl in Hc. eapply re_sub_from_incl; eauto.
Qed.

(** X11: the letter [x], in either case, is a separator wherever it
    stands, also inside a word: no piece that the split pattern leaves,
    and so no name of a record that comes from a split, contains it. *)
Theorem split_pieces_without_x (combined_name : str) :
  Forall (Forall (fun c => is_x c = false))
         (re_split true split_regex combined_name) /\
  Forall (Forall (fun c => is_x c = false)) (split_pieces combined_name).
Proof.
  assert (Forall (Forall (fun c => is_x c = false))
            (re_split true split_regex combined_name)) as H
    by (apply re_split_from_no_x; lia).
  split; [exact H|].
  unfold split_pieces. apply Forall_map, Forall_forall.
  intros p Hp. apply filter_In in Hp. destruct Hp as [Hp _].
  rewrite Forall_forall in H. specialize (H p Hp).
  rewrite Forall_forall in *. intros c Hc. apply H.
  apply clean_name_incl; exact Hc.
Qed.

(** ** Cleaning, detection, normalisation and sorting *)

(** X12: [clean_name] returns a trimmed string that is made of
    characters of its argument and is not longer; it returns its argument
    as it is exactly when the argument is trimmed and [SUFFIX_PATTERN]
    finds no match in it. *)
Theorem clean_name_shape (s : str) :
  strip (clean_name s) = clean_name s /\
  length (clean_name s) <= length s /\
  incl (clean_name s) s /\
  (clean_name s = s <->
   strip s = s /\ re_search true SUFFIX_PATTERN None s = None).
Proof.
  repeat split.
  - apply strip_idem.
  - unfold clean_name, re_sub.
    pose proof (strip_length (re_sub_from true (length s) SUFFIX_PATTERN None s)).
    pose proof (re_sub_from_length true SUFFIX_PATTERN (length s) None s). lia.
  - apply clean_name_incl.
  - apply clean_name_fixed_iff; assumption.
  - apply clean_name_fixed_iff; assumption.
  - intros [Hs Hnone]. apply clean_name_fixed_iff. auto.
Qed.

Lemma clean_name_shape_witness : clean_name (L "Solo Set") = L "Solo Set".
Proof.
  apply (proj2 (proj2 (proj2 (proj2 (clean_name_shape (L "Solo Set")))))).
  split; reflexivity.
Defined.

Lemma py_lower_not_upper (c : ascii) :
  py_lower c <> "B"%char /\ py_lower c <> "F"%char /\ py_lower c <> "V"%char.
Proof.
  destruct c as [[] [] [] [] [] [] [] []]; vm_compute;
    repeat split; discriminate.
Qed.

(** X13: mode detection is case-sensitive: a lowercased name carries no
    mode. *)
Theorem detect_mode_lowercase (s : str) : detect_mode (lower s) = [].
Proof.
  apply detect_mode_none. intros pre tok post (Hs & Hin & _).
  assert (exists c tok', tok = c :: tok' /\
            (c = "B"%char \/ c = "F"%char \/ c = "V"%char))
    as (c & tok' & -> & Hc).
  { unfold mode_tokens in Hin. simpl in Hin.
    destruct Hin as [<-|[<-|[<-|[<-|[]]]]]; eexists _, _; split;
      try reflexivity; auto. }
  assert (In c (lower s)) as Hc'.
  { rewrite Hs. apply in_or_app; right; left; reflexivity. }
  unfold lower in Hc'. apply in_map_iff in Hc'. destruct Hc' as (x & Hx & _).
  destruct (py_lower_not_upper x) as (H1 & H2 & H3).
  destruct Hc as [ -> | [ -> | -> ] ]; contradiction.
Qed.

Lemma split_ws_aux_tokens (s : str) :
  forall cur, no_space cur ->
  Forall (fun tok => no_space tok /\ tok <> []) (split_ws_aux cur s).
Proof.
  induction s as [|c s IH]; intros cur Hcur; cbn [split_ws_aux].
  - destruct cur as [|x cur]; constructor; [|constructor].
    split; [apply Forall_rev; exact Hcur|].
    intros H. apply (f_equal (@rev _)) in H. rewrite rev_involutive in H.
    discriminate.
  - destruct (is_space c) eqn:E.
    + destruct cur as [|x cur]; [apply IH; constructor|].
      constructor; [|apply IH; constructor].
      split; [apply Forall_rev; exact Hcur|].
      intros H. apply (f_equal (@rev _)) in H. rewrite rev_involutive in H.
      discriminate.
    + apply IH. constructor; assumption.
Qed.

Lemma split_on_aux_incl (sep : ascii) (s : str) :
  forall cur piece, In piece (split_on_aux sep cur s) ->
  incl piece (rev cur ++ s).
Proof.
  induction s as [|c s IH]; intros cur piece; cbn [split_on_aux].
  - intros [<-|[]]. rewrite app_nil_r. apply incl_refl.
  - destruct (ascii_eqb c sep).
    + intros [<-|H]; [apply incl_appl, incl_refl|].
      apply IH in H. simpl in H. apply incl_appr, incl_tl. exact H.
    + intros H. apply IH in H. simpl in H. rewrite <- app_assoc in H. exact H.
Qed.

Lemma no_space_incl (a b : str) : incl a b -> no_space b -> no_space a.
Proof.
  unfold no_space. rewrite !Forall_forall. intros Hab Hb c Hc. auto.
Qed.

Lemma no_space_strip (s : str) : no_space s -> strip s = s.
Proof.
  intros Hs. destruct s as [|c s]; [reflexivity|].
  inversion Hs as [|? ? Hc Hs']; subst.
  rewrite strip_cons_nonspace by exact Hc. f_equal.
  unfold rstrip.
  destruct (rev s) as [|x r] eqn:E.
  - apply (f_equal (@rev _)) in E. rewrite rev_involutive in E. subst. reflexivity.
  - assert (is_space x = false) as Hx.
    { unfold no_space in Hs'. rewrite Forall_forall in Hs'. apply Hs'.
      apply in_rev. rewrite E. left; reflexivity. }
    simpl. rewrite Hx. rewrite <- E. apply rev_involutive.
Qed.

(** X14: what [parse_datetime] returns contains no whitespace, so that
    the function, given a result of its own, returns the empty string:
    it accepts the input form only. *)
Theorem parse_datetime_output (s : str) :
  no_space (parse_datetime s) /\
  parse_datetime (parse_datetime s) = [].
Proof.
  assert (no_space (parse_datetime s)) as Hno.
  { unfold parse_datetime. destruct s as [|c0 s0]; [constructor|].
    destruct (strip (c0 :: s0)) as [|c1 s1] eqn:Es; [constructor|].
    pose proof (@split_ws_aux_tokens (c1 :: s1) [] (Forall_nil _)) as Htok.
    fold (split_ws (c1 :: s1)) in Htok.
    destruct (split_ws (c1 :: s1)) as [|d [|t [|x l]]]; try constructor.
    inversion Htok as [|? ? [Hd _] Htok']; subst.
    inversion Htok' as [|? ? [Ht _] _]; subst.
    pose proof (@split_on_aux_incl "/"%char d [] ) as Hincl.
    fold (split_on "/"%char d) in Hincl.
    destruct (split_on "/"%char d) as [|y [|m [|dd [|z l]]]]; try constructor.
    unfold no_space. rewrite !Forall_app. repeat split;
      try (repeat constructor; fail); try exact Ht;
      (eapply no_space_incl; [apply Hincl|exact Hd]); simpl; auto. }
  split; [exact Hno|].
  destruct (parse_datetime s) as [|c out] eqn:E; [reflexivity|].
  unfold parse_datetime. rewrite (no_space_strip Hno).
  unfold split_ws. rewrite split_ws_aux_last, app_nil_r by exact Hno.
  destruct (rev (c :: out)) eqn:Er; reflexivity.
Qed.

(** X15: a list that is in the order of the sort keys is left as it is
    by the sort; sorting is therefore idempotent. *)
Theorem sort_events_fixed :
  (forall l, StronglySorted key_le l -> sort_events l = l) /\
  (forall l, sort_events (sort_events l) = sort_events l).
Proof.
  assert (forall l, StronglySorted key_le l -> sort_events l = l) as H.
  { induction 1 as [|x l Hl IH Hx]; [reflexivity|].
    cbn [sort_events fold_right]. fold (sort_events l). rewrite IH.
    destruct l as [|y l]; [reflexivity|]. cbn [insert_event].
    inversion Hx as [|? ? Hxy _]; subst. unfold key_le in Hxy.
    rewrite Hxy. reflexivity. }
  split; [exact H|]. intros l. apply H. apply sort_events_sorted.
Qed.

Lemma sort_events_fixed_witness :
  sort_events (sort_events (group_events [sample_solo_row; sample_split_row]))
  = sort_events (group_events [sample_solo_row; sample_split_row]).
Proof. apply (proj2 sort_events_fixed). Defined.

(** X16: every row that [load_csv] returns has four trimmed, non-empty
    fields. *)
Theorem loaded_rows_valid (raw_lines : list str) (err : list str)
  (events : list RawRow) :
  load_csv raw_lines = (err, Ok events) -> Forall valid_row events.
Proof. apply load_csv_valid. Qed.

Lemma loaded_rows_valid_witness :
  Forall valid_row
    [ row "2024/07/13 18:00" "2024/07/13 19:00" "Artist A B2B Artist B" "Main Stage";
      row "2024/07/13 17:00" "2024/07/13 18:00" "Solo Set VS" "Main Stage" ].
Proof.
  apply (@loaded_rows_valid sample_csv []).
  vm_compute; reflexivity.
Defined.

(** X17: every name and every custom name that [group_events] puts in a
    record is trimmed, whatever the rows are. *)
Theorem record_names_trimmed (events : list RawRow) (e : OutputEvent) :
  In e (group_events events) ->
  strip (ev_name e) = ev_name e /\
  (forall custom, ev_custom_name e = Some custom -> strip custom = custom).
Proof.
  intros He. apply group_events_rows in He. destruct He as (ev & _ & He).
  unfold emit_row, emit_name, slot_key in He.
  destruct (1 <? length (split_artists (name ev))).
  - apply in_map_iff in He. destruct He as (piece & <- & Hp). simpl.
    split; [|intros c Hc; injection Hc as <-; apply strip_idem].
    unfold split_artists in Hp. destruct (is_b2b_literal (name ev)).
    + destruct Hp as [<-|[]]. apply strip_idem.
    + unfold split_pieces in Hp. apply in_map_iff in Hp.
      destruct Hp as (n & <- & _). apply strip_idem.
  - destruct He as [<-|[]]. simpl. split; [apply strip_idem | discriminate].
Qed.

Lemma record_names_trimmed_witness :
  strip (L "Artist A") = L "Artist A".
Proof.
  apply (proj1 (@record_names_trimmed [sample_split_row]
                  (hd (single_event sample_split_row []) (split_block sample_split_row))
                  ltac:(vm_compute; left; reflexivity))).
Defined.
